(** * The SSE client transport ([src/client/sse.ts]) as an event-driven machine

    [SSEClientTransport] is a class of asynchronous methods and event
    handlers.  Each of them runs without interruption up to its next
    [await] on a collaborator; the embedding therefore gives one state
    transformer per such segment.  A suspended segment is kept in the state
    as a first-order continuation, and the value the platform later
    delivers for it is an input of the machine, so that calls, events and
    answers interleave as they do on the event loop.  Everything the
    transport does to the outside world (the objects it creates, the
    requests it issues, the observer callbacks it invokes) is appended to a
    trace.

    What is taken from the platform rather than from the source:
    - a promise the transport creates is settled at most once, and its
      outcome reaches the promise that awaits or returns it at once;
    - the observers [onclose], [onerror] and [onmessage] are slots that are
      assigned or not; a handler neither throws nor calls the transport;
    - [Headers] matches names without regard to letter case;
    - [URL] parsing, JSON encoding and the message schema are parameters. *)

From Stdlib Require Import String Ascii Bool Arith PeanoNat Lia List DecimalString.
Import ListNotations.
Open Scope string_scope.
Open Scope list_scope.
Open Scope nat_scope.

Set Implicit Arguments.

(** ** Platform values *)

(** A parsed [URL]: the two properties the transport reads. *)
Record URL := mkURL { href : string; origin : string }.

(** [OAuthTokens]: the transport only reads [access_token]. *)
Record OAuthTokens := mkTokens { access_token : string }.

(** [AuthResult] is a union of string literals; the transport compares it
    with ["AUTHORIZED"]. *)
Definition AuthResult := string.

(** A [Response]; [ok] is the platform's reading of the status. *)
Record Response := mkResponse { status : nat }.

Definition ok (r : Response) : bool :=
  (200 <=? status r) && (status r <=? 299).

(** Values that are thrown or passed to [onerror]. *)
Inductive Error :=
| JsError (message : string)
    (* new Error(message) *)
| PostError (status : nat) (text : option string)
    (* new Error(`Error POSTing to endpoint (HTTP ${status}): ${text}`) *)
| SseError (code : option nat) (message : option string)
    (* new SseError(event.code, event.message, event) *)
| Thrown (what : string).
    (* a value thrown by a collaborator: auth, tokens, fetch, the URL
       constructor or the message schema *)

Definition NoAuthProvider := JsError "No auth provider".
Definition Unauthorized := JsError "Unauthorized".
Definition NotConnected := JsError "Not connected".
Definition AlreadyStarted :=
  JsError "SSEClientTransport already started! If using Client class, note that connect() calls start() automatically.".
Definition EndpointOriginMismatch (o : string) :=
  JsError ("Endpoint origin does not match connection origin: " ++ o)%string.

(** ** Plain objects used as string records, and [Headers] *)

(** The own properties of a plain object, in insertion order. *)
Definition Obj := list (string * string).

Fixpoint obj_get (k : string) (o : Obj) : option string :=
  match o with
  | [] => None
  | (k', v) :: rest => if String.eqb k' k then Some v else obj_get k rest
  end.

(** [o[k] = v]: an existing property keeps its place. *)
Fixpoint obj_set (k v : string) (o : Obj) : Obj :=
  match o with
  | [] => [(k, v)]
  | (k', v') :: rest =>
      if String.eqb k' k then (k', v) :: rest else (k', v') :: obj_set k v rest
  end.

(** [{ ...a, ...b }]: the properties of [a], then those of [b], assigned in
    order to a fresh object. *)
Definition assign (target source : Obj) : Obj :=
  fold_left (fun o kv => obj_set (fst kv) (snd kv) o) source target.

Definition spread (a b : Obj) : Obj := assign (assign [] a) b.

Definition lower_ascii (c : ascii) : ascii :=
  let n := nat_of_ascii c in
  if (65 <=? n) && (n <=? 90) then ascii_of_nat (n + 32) else c.

Fixpoint lower (s : string) : string :=
  match s with
  | EmptyString => EmptyString
  | String c rest => String (lower_ascii c) (lower rest)
  end.

(** A [Headers] object is a header list; names match case-insensitively, so
    they are stored in lower case.  Names and values are taken to be
    well-formed header names and values. *)
Definition Headers := list (string * string).

Definition named (n : string) (e : string * string) : bool :=
  String.eqb (fst e) n.

Definition Headers_append (h : Headers) (name value : string) : Headers :=
  h ++ [(lower name, value)].

(** [new Headers(init)] for a record: every property is appended. *)
Definition Headers_new (init : Obj) : Headers :=
  fold_left (fun h kv => Headers_append h (fst kv) (snd kv)) init [].

Fixpoint set_first (n v : string) (h : Headers) : Headers :=
  match h with
  | [] => []
  | e :: rest =>
      if named n e then (n, v) :: filter (fun e' => negb (named n e')) rest
      else e :: set_first n v rest
  end.

(** [headers.set(name, value)]. *)
Definition Headers_set (h : Headers) (name value : string) : Headers :=
  let n := lower name in
  if existsb (named n) h then set_first n value h else h ++ [(n, value)].

(** [headers.get(name)]: the values of that name, joined. *)
Definition Headers_get (h : Headers) (name : string) : option string :=
  match filter (named (lower name)) h with
  | [] => None
  | e :: rest => Some (fold_left (fun acc e' => acc ++ ", " ++ snd e')%string rest (snd e))
  end.

(** A [HeadersInit]: a plain record, a [Headers] object, or an array of
    name and value pairs. *)
Inductive HeadersInit :=
| record (properties : Obj)
| Headers_object (h : Headers)
| pairs (entries : list (string * string)).

(** The properties of an array of pairs: its indices, each holding one
    pair, which [new Headers] reads as the text [name,value]. *)
Fixpoint indexed (i : nat) (entries : list (string * string)) : Obj :=
  match entries with
  | [] => []
  | (name, value) :: rest =>
      (NilEmpty.string_of_uint (Nat.to_uint i), (name ++ "," ++ value)%string)
      :: indexed (S i) rest
  end.

(** What an object spread [{ ...init }] copies: the own enumerable
    properties.  A [Headers] object has none.  (The engine enumerates
    integer-like names before the others; no two properties that differ
    in place only for that reason share a header name, so the value
    [Headers_get] finds under a name is the same.) *)
Definition own_properties (init : HeadersInit) : Obj :=
  match init with
  | record properties => properties
  | Headers_object _ => []
  | pairs entries => indexed 0 entries
  end.

(** *** What a record gives a header name

    Property names are case-sensitive, header names are not: the values
    of the properties of [o] whose name is [name] in some letter case, in
    the order of the properties; [joined] is how [Headers_get] combines
    the values of one name; [without k o] is [o] less its property [k]. *)
Definition same_name (name : string) (kv : string * string) : bool :=
  String.eqb (lower (fst kv)) (lower name).

Definition values_named (name : string) (o : Obj) : list string :=
  map snd (filter (same_name name) o).

Definition joined (values : list string) : option string :=
  match values with
  | [] => None
  | v :: rest => Some (fold_left (fun acc v' => acc ++ ", " ++ v')%string rest v)
  end.

Definition without (k : string) (o : Obj) : Obj :=
  filter (fun kv => negb (String.eqb (fst kv) k)) o.

(** ** The collaborators' types and pure operations *)

Class Platform := {
  JSONRPCMessage : Type;
  OAuthClientProvider : Type;
  EventSourceInit : Type;
  (* the properties of a [RequestInit] other than [headers] *)
  RequestOptions : Type;
  (* JSON.stringify(message) *)
  JSON_stringify : JSONRPCMessage -> string;
  (* JSONRPCMessageSchema.parse(JSON.parse(data)) *)
  JSONRPCMessageSchema_parse : string -> Error + JSONRPCMessage;
  (* new URL(data, base) *)
  URL_new : string -> URL -> Error + URL
}.

Section SSE.

Context {P : Platform}.

(** A [RequestInit]: its [headers], and the rest. *)
Record RequestInit := mkRequestInit {
  ri_headers : option HeadersInit;
  ri_options : RequestOptions
}.

(** The object [send] passes to [fetch]:
    [{ ...this._requestInit, method, headers, body, signal }]. *)
Record FetchInit := mkFetchInit {
  init_spread : option RequestInit;
  init_method : string;
  init_headers : Headers;
  init_body : string;
  init_signal : option nat
}.

(** ** The transport object *)

(** [EventSource] and [AbortController] objects are named by numbers.  The
    observer slots record whether a handler is assigned. *)
Record Transport := mkTransport {
  _eventSource : option nat;
  _endpoint : option URL;
  _abortController : option nat;
  _url : URL;
  _eventSourceInit : option EventSourceInit;
  _requestInit : option RequestInit;
  _authProvider : option OAuthClientProvider;
  onclose : bool;
  onerror : bool;
  onmessage : bool
}.

Record SSEClientTransportOptions := mkOptions {
  opt_authProvider : option OAuthClientProvider;
  opt_eventSourceInit : option EventSourceInit;
  opt_requestInit : option RequestInit
}.

Definition constructor (url : URL) (opts : option SSEClientTransportOptions)
  : Transport :=
  {| _eventSource := None;
     _endpoint := None;
     _abortController := None;
     _url := url;
     _eventSourceInit :=
       match opts with Some o => opt_eventSourceInit o | None => None end;
     _requestInit :=
       match opts with Some o => opt_requestInit o | None => None end;
     _authProvider :=
       match opts with Some o => opt_authProvider o | None => None end;
     onclose := false;
     onerror := false;
     onmessage := false |}.

(** ** Promises *)

Inductive Settlement :=
| Pending
| Fulfilled
| Rejected (e : Error).

(** A promise the transport created, and the promise (if any) that adopts
    its outcome: the promise of the [async] function that awaits or returns
    it, or the one whose [resolve]/[reject] were given to its [then]. *)
Record Promise := mkPromise {
  settlement : Settlement;
  adopter : option nat
}.

(** Objects of one kind are kept newest first, and an object is named by
    the number of objects of its kind created before it. *)
Fixpoint object_at {A : Type} (objects : list A) (n : nat) : option A :=
  match objects with
  | [] => None
  | x :: older => if n =? length older then Some x else object_at older n
  end.

Definition outcome (ps : list Promise) (p : nat) : option Settlement :=
  option_map settlement (object_at ps p).

(** [resolve]/[reject] of promise [p]: nothing happens once [p] is settled;
    otherwise the outcome is passed on to the adopter, which is always an
    older promise. *)
Fixpoint settle (ps : list Promise) (p : nat) (o : Settlement) : list Promise :=
  match ps with
  | [] => []
  | r :: older =>
      if p =? length older then
        match settlement r with
        | Pending =>
            {| settlement := o; adopter := adopter r |} ::
            match adopter r with
            | Some q => settle older q o
            | None => older
            end
        | _ => r :: older
        end
      else r :: settle older p o
  end.

(** ** Requests to the collaborators, and the trace *)

Inductive Request :=
| Tokens (provider : OAuthClientProvider)
    (* this._authProvider.tokens() *)
| Auth (provider : OAuthClientProvider) (serverUrl : URL)
    (* auth(this._authProvider, { serverUrl: this._url }) *)
| Fetch (input : option URL) (init : FetchInit)
    (* fetch(this._endpoint, init) *)
| Text (response : Response).
    (* response.text() *)

Inductive Output :=
| new_EventSource (es : nat) (url : string) (init : option EventSourceInit)
    (* init = None: the default init, whose fetch attaches the common headers *)
| new_AbortController (ac : nat)
| AbortController_abort (ac : nat)
| EventSource_close (es : nat)
| call_onclose
| call_onerror (e : Error)
| call_onmessage (m : JSONRPCMessage)
| requested (r : nat) (q : Request)
| EventSource_fetch (url : string) (init : RequestInit) (headers : Obj)
    (* fetch(url, { ...init, headers }), returned to the EventSource *)
| EventSource_fetch_failed (e : Error).

(** What the platform delivers for a request. *)
Inductive Answer :=
| tokens_are (t : option OAuthTokens)
| auth_is (r : AuthResult)
| response_is (r : Response)
| text_is (t : string)
| throws (e : Error).

(** Who is waiting for the common headers. *)
Inductive HeadersUser :=
| for_send (message : JSONRPCMessage) (p : nat)
| for_EventSource (url : string) (init : RequestInit).

(** The suspended segments: where the function stopped, with its live
    variables. *)
Inductive Continuation :=
| in_authThenStart (a : nat)
| in_commonHeaders (u : HeadersUser)
| in_send_fetch (message : JSONRPCMessage) (p : nat)
| in_send_auth (message : JSONRPCMessage) (p : nat)
| in_send_text (message : JSONRPCMessage) (p : nat) (response : Response).

(** [sources] holds, for every [EventSource] created, the promise whose
    [resolve] and [reject] its handlers keep. *)
Record State := mkState {
  this : Transport;
  promises : list Promise;
  sources : list nat;
  awaiting : list (nat * Continuation);
  next_request : nat;
  trace : list Output
}.

Definition initially (t : Transport) : State :=
  {| this := t; promises := []; sources := []; awaiting := [];
     next_request := 0; trace := [] |}.

(** *** Elementary state changes *)

Definition update (f : Transport -> Transport) (s : State) : State :=
  mkState (f (this s)) (promises s) (sources s) (awaiting s) (next_request s) (trace s).

Definition set_eventSource (es : nat) (t : Transport) : Transport :=
  mkTransport (Some es) (_endpoint t) (_abortController t) (_url t)
    (_eventSourceInit t) (_requestInit t) (_authProvider t)
    (onclose t) (onerror t) (onmessage t).

Definition set_endpoint (u : URL) (t : Transport) : Transport :=
  mkTransport (_eventSource t) (Some u) (_abortController t) (_url t)
    (_eventSourceInit t) (_requestInit t) (_authProvider t)
    (onclose t) (onerror t) (onmessage t).

Definition set_abortController (ac : nat) (t : Transport) : Transport :=
  mkTransport (_eventSource t) (_endpoint t) (Some ac) (_url t)
    (_eventSourceInit t) (_requestInit t) (_authProvider t)
    (onclose t) (onerror t) (onmessage t).

Definition set_onclose (b : bool) (t : Transport) : Transport :=
  mkTransport (_eventSource t) (_endpoint t) (_abortController t) (_url t)
    (_eventSourceInit t) (_requestInit t) (_authProvider t)
    b (onerror t) (onmessage t).

Definition set_onerror (b : bool) (t : Transport) : Transport :=
  mkTransport (_eventSource t) (_endpoint t) (_abortController t) (_url t)
    (_eventSourceInit t) (_requestInit t) (_authProvider t)
    (onclose t) b (onmessage t).

Definition set_onmessage (b : bool) (t : Transport) : Transport :=
  mkTransport (_eventSource t) (_endpoint t) (_abortController t) (_url t)
    (_eventSourceInit t) (_requestInit t) (_authProvider t)
    (onclose t) (onerror t) b.

Definition emit (o : Output) (s : State) : State :=
  mkState (this s) (promises s) (sources s) (awaiting s) (next_request s)
    (trace s ++ [o]).

Definition new_promise (adopted_by : option nat) (s : State) : nat * State :=
  (length (promises s),
   mkState (this s) (mkPromise Pending adopted_by :: promises s) (sources s)
     (awaiting s) (next_request s) (trace s)).

Definition with_promise (adopted_by : option nat) (s : State) : State :=
  snd (new_promise adopted_by s).

Definition new_source (g : nat) (s : State) : nat * State :=
  (length (sources s),
   mkState (this s) (promises s) (g :: sources s)
     (awaiting s) (next_request s) (trace s)).

Definition resolve (p : nat) (s : State) : State :=
  mkState (this s) (settle (promises s) p Fulfilled) (sources s)
    (awaiting s) (next_request s) (trace s).

Definition reject (p : nat) (e : Error) (s : State) : State :=
  mkState (this s) (settle (promises s) p (Rejected e)) (sources s)
    (awaiting s) (next_request s) (trace s).

(** [await q]: the request goes out and the rest of the function is kept. *)
Definition await (q : Request) (k : Continuation) (s : State) : State :=
  mkState (this s) (promises s) (sources s)
    ((next_request s, k) :: awaiting s)
    (S (next_request s))
    (trace s ++ [requested (next_request s) q]).

Fixpoint waiting_for (r : nat) (w : list (nat * Continuation))
  : option Continuation :=
  match w with
  | [] => None
  | (r', k) :: rest => if r' =? r then Some k else waiting_for r rest
  end.

Definition resumed (r : nat) (s : State) : State :=
  mkState (this s) (promises s) (sources s)
    (filter (fun e => negb (fst e =? r)) (awaiting s))
    (next_request s) (trace s).

Notation "s '|>' f" := (f s) (at level 50, left associativity, only parsing).

(** [this.onerror?.(error)], [this.onmessage?.(message)], [this.onclose?.()] *)
Definition onerror_ (e : Error) (s : State) : State :=
  if onerror (this s) then emit (call_onerror e) s else s.

Definition onmessage_ (m : JSONRPCMessage) (s : State) : State :=
  if onmessage (this s) then emit (call_onmessage m) s else s.

Definition onclose_ (s : State) : State :=
  if onclose (this s) then emit call_onclose s else s.

(** ** The methods, segment by segment *)

(** [_startOrAuth()] (lines 103-162).  The executor of the new promise runs
    at once: it creates the [EventSource] and the [AbortController] and
    installs the handlers, which keep the [resolve] and [reject] of this
    promise.  The controller is named like the [EventSource] it is
    created with.  [awaited_by] is the promise of the [async] function that
    does [return await this._startOrAuth()]. *)
Definition _startOrAuth (awaited_by : nat) (s : State) : State :=
  let '(g, s) := new_promise (Some awaited_by) s in
  let '(es, s) := new_source g s in
  s |> emit (new_EventSource es (href (_url (this s))) (_eventSourceInit (this s)))
    |> update (set_eventSource es)
    |> emit (new_AbortController es)
    |> update (set_abortController es).

(** [this._authThenStart().then(resolve, reject)] (lines 71-89), up to
    [await auth(...)]; [then_] is the promise whose [resolve] and [reject]
    receive the outcome. *)
Definition _authThenStart (then_ : nat) (s : State) : State :=
  let '(a, s) := new_promise (Some then_) s in
  match _authProvider (this s) with
  | None => s |> reject a NoAuthProvider
  | Some provider =>
      s |> await (Auth provider (_url (this s))) (in_authThenStart a)
  end.

Definition AUTHORIZED (result : AuthResult) : bool :=
  String.eqb result "AUTHORIZED".

Definition _authThenStart_resumed (a : nat) (answer : Answer) (s : State)
  : option State :=
  match answer with
  | throws error => Some (s |> onerror_ error |> reject a error)
  | auth_is result =>
      if negb (AUTHORIZED result) then Some (s |> reject a Unauthorized)
      else Some (s |> _startOrAuth a)
  | _ => None
  end.

(** [close()] (lines 174-178). *)
Definition close (s : State) : State :=
  let '(c, s) := new_promise None s in
  let s :=
    match _abortController (this s) with
    | Some ac => s |> emit (AbortController_abort ac)
    | None => s
    end in
  let s :=
    match _eventSource (this s) with
    | Some es => s |> emit (EventSource_close es)
    | None => s
    end in
  s |> onclose_ |> resolve c.

(** The [catch] block of [send] (lines 214-217). *)
Definition send_catch (p : nat) (error : Error) (s : State) : State :=
  s |> onerror_ error |> reject p error.

(** [this._requestInit?.headers], spread into an object literal. *)
Definition requestInit_headers (t : Transport) : Obj :=
  match _requestInit t with
  | Some ri =>
      match ri_headers ri with
      | Some init => own_properties init
      | None => []
      end
  | None => []
  end.

(** [send], lines 187-195: the [headers] and the [init] of the request. *)
Definition send_init (t : Transport) (message : JSONRPCMessage)
    (commonHeaders : Obj) : FetchInit :=
  let headers := Headers_new (spread commonHeaders (requestInit_headers t)) in
  let headers := Headers_set headers "content-type" "application/json" in
  {| init_spread := _requestInit t;
     init_method := "POST";
     init_headers := headers;
     init_body := JSON_stringify message;
     init_signal := _abortController t |}.

(** [send], lines 187-197: from the common headers to [await fetch(...)]. *)
Definition send_post (message : JSONRPCMessage) (p : nat) (commonHeaders : Obj)
    (s : State) : State :=
  let init := send_init (this s) message commonHeaders in
  s |> await (Fetch (_endpoint (this s)) init) (in_send_fetch message p).

(** [_commonHeaders()] (lines 91-101) has two users: [send], and the
    [fetch] of the default [EventSource] init (line 108). *)
Definition with_headers (u : HeadersUser) (headers : Obj) (s : State) : State :=
  match u with
  | for_send message p => s |> send_post message p headers
  | for_EventSource url init => s |> emit (EventSource_fetch url init headers)
  end.

Definition headers_failed (u : HeadersUser) (error : Error) (s : State) : State :=
  match u with
  | for_send _ p => s |> send_catch p error
  | for_EventSource _ _ => s |> emit (EventSource_fetch_failed error)
  end.

Definition _commonHeaders (u : HeadersUser) (s : State) : State :=
  match _authProvider (this s) with
  | Some provider => s |> await (Tokens provider) (in_commonHeaders u)
  | None => s |> with_headers u []
  end.

(** Lines 92-100, once [tokens] is known. *)
Definition bearer (tokens : option OAuthTokens) : Obj :=
  match tokens with
  | Some t => obj_set "Authorization" ("Bearer " ++ access_token t)%string []
  | None => []
  end.

Definition _commonHeaders_resumed (u : HeadersUser) (answer : Answer) (s : State)
  : option State :=
  match answer with
  | tokens_are tokens => Some (s |> with_headers u (bearer tokens))
  | throws error => Some (s |> headers_failed u error)
  | _ => None
  end.

(** [send(message)] (lines 180-218).  [returned_to] is the promise of the
    outer [send] when this call is its [return this.send(message)]. *)
Definition send (message : JSONRPCMessage) (returned_to : option nat) (s : State)
  : State :=
  let '(p, s) := new_promise returned_to s in
  match _endpoint (this s) with
  | None => s |> reject p NotConnected
  | Some _ => s |> _commonHeaders (for_send message p)
  end.

Definition send_fetch_resumed (message : JSONRPCMessage) (p : nat)
    (answer : Answer) (s : State) : option State :=
  match answer with
  | response_is response =>
      if negb (ok response) then
        match status response =? 401, _authProvider (this s) with
        | true, Some provider =>
            Some (s |> await (Auth provider (_url (this s))) (in_send_auth message p))
        | _, _ =>
            Some (s |> await (Text response) (in_send_text message p response))
        end
      else Some (s |> resolve p)
  | throws error => Some (s |> send_catch p error)
  | _ => None
  end.

Definition send_auth_resumed (message : JSONRPCMessage) (p : nat)
    (answer : Answer) (s : State) : option State :=
  match answer with
  | auth_is result =>
      if negb (AUTHORIZED result) then Some (s |> send_catch p Unauthorized)
      else Some (s |> send message (Some p))
  | throws error => Some (s |> send_catch p error)
  | _ => None
  end.

(** [await response.text().catch(() => null)], then the [throw]. *)
Definition send_text_resumed (p : nat) (response : Response)
    (answer : Answer) (s : State) : option State :=
  match answer with
  | text_is t => Some (s |> send_catch p (PostError (status response) (Some t)))
  | throws _ => Some (s |> send_catch p (PostError (status response) None))
  | _ => None
  end.

(** [start()] (lines 164-172). *)
Definition start (s : State) : State :=
  let '(p, s) := new_promise None s in
  match _eventSource (this s) with
  | Some _ => s |> reject p AlreadyStarted
  | None => s |> _startOrAuth p
  end.

(** *** The handlers installed by [_startOrAuth]; [g] is its promise *)

Definition is_401 (code : option nat) : bool :=
  match code with Some c => c =? 401 | None => false end.

(** [this._eventSource.onerror] (lines 113-122). *)
Definition EventSource_onerror (g : nat) (code : option nat)
    (message : option string) (s : State) : State :=
  match is_401 code, _authProvider (this s) with
  | true, Some _ => s |> _authThenStart g
  | _, _ =>
      let error := SseError code message in
      s |> reject g error |> onerror_ error
  end.

(** The ["endpoint"] listener (lines 128-147). *)
Definition EventSource_endpoint (g : nat) (data : string) (s : State) : State :=
  match URL_new data (_url (this s)) with
  | inl error => s |> reject g error |> onerror_ error |> close
  | inr endpoint =>
      let s := s |> update (set_endpoint endpoint) in
      if negb (String.eqb (origin endpoint) (origin (_url (this s)))) then
        let error := EndpointOriginMismatch (origin endpoint) in
        s |> reject g error |> onerror_ error |> close
      else s |> resolve g
  end.

(** [this._eventSource.onmessage] (lines 149-160). *)
Definition EventSource_onmessage (data : string) (s : State) : State :=
  match JSONRPCMessageSchema_parse data with
  | inl error => s |> onerror_ error
  | inr message => s |> onmessage_ message
  end.

(** The [fetch] of the default init (line 108); it is only installed when
    the caller gave no [eventSourceInit]. *)
Definition EventSource_init_fetch (url : string) (init : RequestInit) (s : State)
  : State :=
  match _eventSourceInit (this s) with
  | Some _ => s
  | None => s |> _commonHeaders (for_EventSource url init)
  end.

(** ** The machine *)

Inductive Input :=
| Call_start
| Call_close
| Call_send (message : JSONRPCMessage)
| Assign_onclose (handler : bool)
| Assign_onerror (handler : bool)
| Assign_onmessage (handler : bool)
| Event_error (es : nat) (code : option nat) (message : option string)
| Event_endpoint (es : nat) (data : string)
| Event_message (es : nat) (data : string)
| Call_fetch (url : string) (init : RequestInit)
| Settled (r : nat) (answer : Answer).

Definition resume (k : Continuation) (answer : Answer) (s : State)
  : option State :=
  match k with
  | in_authThenStart a => _authThenStart_resumed a answer s
  | in_commonHeaders u => _commonHeaders_resumed u answer s
  | in_send_fetch message p => send_fetch_resumed message p answer s
  | in_send_auth message p => send_auth_resumed message p answer s
  | in_send_text _ p response => send_text_resumed p response answer s
  end.

(** An event of an [EventSource] that was never created, and an answer to a
    request nobody waits for or of the wrong kind, are not inputs the
    platform produces; they leave the state as it is. *)
Definition listening (es : nat) (handler : nat -> State -> State) (s : State)
  : State :=
  match object_at (sources s) es with
  | Some g => handler g s
  | None => s
  end.

Definition step (s : State) (i : Input) : State :=
  match i with
  | Call_start => start s
  | Call_close => close s
  | Call_send message => send message None s
  | Assign_onclose b => s |> update (set_onclose b)
  | Assign_onerror b => s |> update (set_onerror b)
  | Assign_onmessage b => s |> update (set_onmessage b)
  | Event_error es code message =>
      s |> listening es (fun g => EventSource_onerror g code message)
  | Event_endpoint es data =>
      s |> listening es (fun g => EventSource_endpoint g data)
  | Event_message es data =>
      s |> listening es (fun _ => EventSource_onmessage data)
  | Call_fetch url init => EventSource_init_fetch url init s
  | Settled r answer =>
      match waiting_for r (awaiting s) with
      | Some k =>
          match resume k answer (resumed r s) with
          | Some s' => s'
          | None => s
          end
      | None => s
      end
  end.

Definition run (s : State) (inputs : list Input) : State :=
  fold_left step inputs s.

(** *** Reading a trace *)

Definition is_onclose (o : Output) : bool :=
  match o with call_onclose => true | _ => false end.

Definition is_onerror (o : Output) : bool :=
  match o with call_onerror _ => true | _ => false end.

Definition is_onmessage (o : Output) : bool :=
  match o with call_onmessage _ => true | _ => false end.

Definition is_new_EventSource (o : Output) : bool :=
  match o with new_EventSource _ _ _ => true | _ => false end.

Definition is_POST (o : Output) : bool :=
  match o with requested _ (Fetch _ _) => true | _ => false end.

Definition times (f : Output -> bool) (outputs : list Output) : nat :=
  length (filter f outputs).

(** How a list of payloads decodes. *)
Definition decode_to (datas : list string) (messages : list JSONRPCMessage)
  : Prop :=
  Forall2 (fun data message => JSONRPCMessageSchema_parse data = inr message)
    datas messages.

(** What [close()] does to the controller and the [EventSource] the
    transport holds, and what it reports. *)
Definition aborted (t : Transport) : list Output :=
  match _abortController t with
  | Some ac => [AbortController_abort ac]
  | None => []
  end.

Definition closed (t : Transport) : list Output :=
  match _eventSource t with
  | Some es => [EventSource_close es]
  | None => []
  end.

Definition close_observed (t : Transport) : list Output :=
  if onclose t then [call_onclose] else [].

(** The ["endpoint"] events that [EventSource] [es] delivered in a run. *)
Definition endpoint_events (es : nat) (inputs : list Input) : list string :=
  flat_map
    (fun i =>
       match i with
       | Event_endpoint es' data => if es' =? es then [data] else []
       | _ => []
       end)
    inputs.

End SSE.

(** ** A concrete platform

    Messages are their own JSON text, and a payload parses when it starts
    with a brace.  [new URL] accepts absolute URLs and absolute paths. *)

Fixpoint after_scheme (s : string) : option string :=
  match s with
  | String ":" (String "/" (String "/" rest)) => Some rest
  | String _ rest => after_scheme rest
  | EmptyString => None
  end.

Fixpoint authority_length (s : string) : nat :=
  match s with
  | EmptyString => 0
  | String "/" _ => 0
  | String _ rest => S (authority_length rest)
  end.

Definition origin_of (s : string) : option string :=
  match after_scheme s with
  | Some rest =>
      Some (substring 0
              (String.length s - String.length rest + authority_length rest) s)
  | None => None
  end.

Definition example_URL_new (data : string) (base : URL) : Error + URL :=
  match origin_of data with
  | Some o => inr (mkURL data o)
  | None =>
      match data with
      | String "/" _ => inr (mkURL (origin base ++ data) (origin base))
      | _ => inl (Thrown "TypeError: Invalid URL")
      end
  end.

Definition example_parse (data : string) : Error + string :=
  match data with
  | String "{" _ => inr data
  | _ => inl (Thrown "SyntaxError")
  end.

Definition example_platform : Platform :=
  {| JSONRPCMessage := string;
     OAuthClientProvider := string;
     EventSourceInit := unit;
     RequestOptions := unit;
     JSON_stringify := fun m => m;
     JSONRPCMessageSchema_parse := example_parse;
     URL_new := example_URL_new |}.

Definition example_url : URL :=
  mkURL "https://example.com/sse" "https://example.com".

Definition example_requestInit : @RequestInit example_platform :=
  @mkRequestInit example_platform
    (Some (record [("Authorization", "Basic me"); ("Content-Type", "text/plain");
                   ("X-Trace", "1")]))
    tt.

(** [new SSEClientTransport(url)] *)
Definition plain_transport : @Transport example_platform :=
  @constructor example_platform example_url None.

(** [new SSEClientTransport(url, { authProvider })] *)
Definition authenticated_transport : @Transport example_platform :=
  @constructor example_platform example_url
    (Some (@mkOptions example_platform (Some "provider") None None)).

(** [new SSEClientTransport(url, { authProvider, requestInit })] *)
Definition customized_transport : @Transport example_platform :=
  @constructor example_platform example_url
    (Some (@mkOptions example_platform (Some "provider") None
             (Some example_requestInit))).

(** [requestInit: { headers: { authorization: "Basic me" } }] *)
Definition lowercase_transport : @Transport example_platform :=
  @constructor example_platform example_url
    (Some (@mkOptions example_platform (Some "provider") None
             (Some (@mkRequestInit example_platform
                      (Some (record [("authorization", "Basic me")])) tt)))).

(** [requestInit: { headers: new Headers({ "X-Trace": "1" }) }] *)
Definition Headers_transport : @Transport example_platform :=
  @constructor example_platform example_url
    (Some (@mkOptions example_platform (Some "provider") None
             (Some (@mkRequestInit example_platform
                      (Some (Headers_object (Headers_new [("X-Trace", "1")])))
                      tt)))).

Definition observed : list (@Input example_platform) :=
  [@Assign_onclose example_platform true; @Assign_onerror example_platform true;
   @Assign_onmessage example_platform true].

(** A transport with observers, started, before any endpoint. *)
Definition connecting (t : @Transport example_platform) : @State example_platform :=
  run (initially t) (observed ++ [@Call_start example_platform]).

(** The same after the server announced ["/messages"]. *)
Definition connected (t : @Transport example_platform) : @State example_platform :=
  run (connecting t) [@Event_endpoint example_platform 0 "/messages"].

Definition messages_endpoint : URL :=
  mkURL "https://example.com/messages" "https://example.com".

(** ** Reading a run *)

Section Observations.

Context {P : Platform}.

(** The outputs that tear the connection down. *)
Definition closes (o : Output) : bool :=
  match o with
  | AbortController_abort _ | EventSource_close _ | call_onclose => true
  | _ => false
  end.

(** The inputs that can tear it down on a transport for [url]: [close()],
    and an ["endpoint"] event that does not parse or has another origin. *)
Definition may_close (url : URL) (i : Input) : bool :=
  match i with
  | Call_close => true
  | Event_endpoint _ data =>
      match URL_new data url with
      | inr endpoint => negb (String.eqb (origin endpoint) (origin url))
      | inl _ => true
      end
  | _ => false
  end.

(** The transport holds the [EventSource] created last, and the controller
    created with it. *)
Definition holds_newest (s : State) : Prop :=
  _eventSource (this s) =
    match sources s with
    | [] => None
    | _ :: older => Some (length older)
    end /\
  _abortController (this s) = _eventSource (this s).

(** The answers that keep one [send] going: the provider's tokens, a 401
    for the POST, and [auth] answering ["AUTHORIZED"]; [n] times over,
    from request [r] on. *)
Fixpoint refusals (tokens : option OAuthTokens) (n r : nat) : list Input :=
  match n with
  | 0 => []
  | S n =>
      Settled r (tokens_are tokens) ::
      Settled (1 + r) (response_is (mkResponse 401)) ::
      Settled (2 + r) (auth_is "AUTHORIZED") ::
      refusals tokens n (3 + r)
  end.

End Observations.

(** ** Properties *)

Section Properties.

Context {P : Platform}.

(** *** Objects named by creation order *)

Lemma object_at_newest (A : Type) (x : A) (l : list A) :
  object_at (x :: l) (length l) = Some x.
Proof. simpl. now rewrite Nat.eqb_refl. Qed.

Lemma object_at_older (A : Type) (x : A) (l : list A) (n : nat) :
  n < length l -> object_at (x :: l) n = object_at l n.
Proof.
  intros Hn. simpl.
  destruct (Nat.eqb_spec n (length l)) as [E | _]; [lia | reflexivity].
Qed.

Lemma object_at_lt (A : Type) (l : list A) (n : nat) (x : A) :
  object_at l n = Some x -> n < length l.
Proof.
  induction l as [| y l IH]; simpl; [discriminate |].
  destruct (Nat.eqb_spec n (length l)) as [-> | _]; intros H.
  - lia.
  - apply IH in H. lia.
Qed.

Lemma outcome_newest (x : Promise) (ps : list Promise) :
  outcome (x :: ps) (length ps) = Some (settlement x).
Proof. unfold outcome. now rewrite object_at_newest. Qed.

Lemma outcome_older (x : Promise) (ps : list Promise) (p : nat) :
  p < length ps -> outcome (x :: ps) p = outcome ps p.
Proof. intros H. unfold outcome. now rewrite object_at_older. Qed.

Lemma outcome_lt (ps : list Promise) (p : nat) (o : Settlement) :
  outcome ps p = Some o -> p < length ps.
Proof.
  unfold outcome. destruct (object_at ps p) eqn:E; [| discriminate].
  intros _. eapply object_at_lt; eauto.
Qed.

(** *** Settling a promise *)

Lemma length_settle (ps : list Promise) :
  forall p o, length (settle ps p o) = length ps.
Proof.
  induction ps as [| r older IH]; intros p o; simpl; [reflexivity |].
  destruct (p =? length older).
  - destruct (settlement r); simpl; try reflexivity.
    destruct (adopter r); simpl; [now rewrite IH | reflexivity].
  - simpl. now rewrite IH.
Qed.

Lemma settle_newest (a : option nat) (ps : list Promise) (o : Settlement) :
  settle (mkPromise Pending a :: ps) (length ps) o =
  mkPromise o a :: match a with Some q => settle ps q o | None => ps end.
Proof. simpl. now rewrite Nat.eqb_refl. Qed.

(** [awaits ps p r]: the still pending promise [r] receives the outcome of
    the pending promise [p], through pending adopters only. *)
Inductive awaits (ps : list Promise) : nat -> nat -> Prop :=
| awaits_itself p :
    outcome ps p = Some Pending -> awaits ps p p
| awaits_adopter p q r :
    object_at ps p = Some (mkPromise Pending (Some q)) ->
    q < p -> awaits ps q r -> awaits ps p r.

Lemma awaits_lt (ps : list Promise) (p r : nat) :
  awaits ps p r -> p < length ps.
Proof.
  intros H. destruct H as [p H | p q r H _ _].
  - eapply outcome_lt; eauto.
  - eapply object_at_lt; eauto.
Qed.

Lemma awaits_le (ps : list Promise) (p r : nat) :
  awaits ps p r -> r <= p.
Proof. induction 1; lia. Qed.

Lemma awaits_pending (ps : list Promise) (p r : nat) :
  awaits ps p r -> outcome ps r = Some Pending.
Proof. induction 1; assumption. Qed.

Lemma awaits_cons (x : Promise) (ps : list Promise) (p r : nat) :
  awaits ps p r -> awaits (x :: ps) p r.
Proof.
  induction 1 as [p H | p q r H Hq _ IH].
  - apply awaits_itself. rewrite outcome_older; [assumption |].
    eapply outcome_lt; eauto.
  - eapply awaits_adopter; eauto.
    rewrite object_at_older; [assumption |]. eapply object_at_lt; eauto.
Qed.

Lemma awaits_tail (x : Promise) (ps : list Promise) (p r : nat) :
  awaits (x :: ps) p r -> p < length ps -> awaits ps p r.
Proof.
  induction 1 as [p H | p q r H Hq _ IH]; intros Hp.
  - apply awaits_itself. now rewrite outcome_older in H.
  - rewrite object_at_older in H by assumption.
    eapply awaits_adopter; eauto. apply IH. lia.
Qed.

Lemma settle_awaits (o : Settlement) (ps : list Promise) :
  forall p r, awaits ps p r -> outcome (settle ps p o) r = Some o.
Proof.
  induction ps as [| x older IH]; intros p r H.
  - apply awaits_lt in H. simpl in H. lia.
  - pose proof (awaits_lt H) as Hlt. pose proof (awaits_le H) as Hle.
    simpl in Hlt. simpl.
    destruct (Nat.eqb_spec p (length older)) as [-> | Hne].
    + inversion H as [p' Hp | p' q r' Hp Hq Hrest]; subst.
      * rewrite outcome_newest in Hp. injection Hp as Hp. rewrite Hp.
        destruct (adopter x) as [q |].
        -- unfold outcome. simpl. rewrite length_settle, Nat.eqb_refl.
           reflexivity.
        -- apply outcome_newest.
      * rewrite object_at_newest in Hp. injection Hp as ->. simpl.
        rewrite outcome_older.
        -- apply IH. now apply awaits_tail in Hrest.
        -- rewrite length_settle. apply awaits_le in Hrest. lia.
    + assert (Hp : p < length older) by lia.
      rewrite outcome_older by (rewrite length_settle; lia).
      apply IH. now apply awaits_tail in H.
Qed.

(** *** What a segment leaves of the transport object *)

Ltac break_match :=
  match goal with
  | |- context [match ?x with _ => _ end] =>
      lazymatch x with
      | context [match _ with _ => _ end] => fail
      | _ => destruct x eqn:?
      end
  end.

(** Callers come before the functions they call. *)
Ltac segments :=
  unfold listening, resume, start, EventSource_onerror, EventSource_endpoint,
    EventSource_onmessage, EventSource_init_fetch, _authThenStart,
    _authThenStart_resumed, send_fetch_resumed, send_auth_resumed,
    send_text_resumed, send, _commonHeaders, _commonHeaders_resumed,
    with_headers, headers_failed, send_post, send_catch, close,
    _startOrAuth, onerror_, onmessage_, onclose_ in *.

Ltac by_cases := segments; cbn; repeat (break_match; cbn).

Ltac elementary :=
  unfold resumed, await, resolve, reject, new_promise, new_source, emit,
    update in *.

Lemma this_close (s : State) : this (close s) = this s.
Proof. by_cases; congruence. Qed.

Lemma this_send (m : JSONRPCMessage) (r : option nat) (s : State) :
  this (send m r s) = this s.
Proof. by_cases; congruence. Qed.

Lemma this_EventSource_init_fetch (url : string) (init : RequestInit) (s : State) :
  this (EventSource_init_fetch url init s) = this s.
Proof. by_cases; congruence. Qed.

Lemma this_EventSource_onmessage (data : string) (s : State) :
  this (EventSource_onmessage data s) = this s.
Proof. by_cases; congruence. Qed.

Lemma this_EventSource_onerror (g : nat) (code : option nat)
    (message : option string) (s : State) :
  this (EventSource_onerror g code message s) = this s.
Proof. by_cases; congruence. Qed.

Lemma this_resume (k : Continuation) (answer : Answer) (s s' : State) :
  resume k answer s = Some s' ->
  this s' = this s \/
  exists es, this s' = set_abortController es (set_eventSource es (this s)).
Proof.
  destruct k; by_cases; intros H; try discriminate; injection H as <-;
    cbn; eauto.
Qed.

Lemma endpoint_listener_keeps (g : nat) (data : string) (s : State) :
  _eventSource (this (EventSource_endpoint g data s)) = _eventSource (this s).
Proof. by_cases; congruence. Qed.

(** No segment clears [_eventSource]. *)
Lemma eventSource_stays (s : State) (i : Input) :
  _eventSource (this s) <> None -> _eventSource (this (step s i)) <> None.
Proof.
  intros H. destruct i; unfold step.
  - unfold start. cbn. destruct (_eventSource (this s)) eqn:E; cbn; congruence.
  - now rewrite this_close.
  - now rewrite this_send.
  - assumption.
  - assumption.
  - assumption.
  - unfold listening. destruct (object_at (sources s) es); [| assumption].
    now rewrite this_EventSource_onerror.
  - unfold listening. destruct (object_at (sources s) es); [| assumption].
    now rewrite endpoint_listener_keeps.
  - unfold listening. destruct (object_at (sources s) es); [| assumption].
    now rewrite this_EventSource_onmessage.
  - now rewrite this_EventSource_init_fetch.
  - destruct (waiting_for r (awaiting s)) as [k |]; [| assumption].
    destruct (resume k answer (resumed r s)) as [s' |] eqn:E; [| assumption].
    apply this_resume in E. destruct E as [-> | [es ->]]; [assumption |].
    discriminate.
Qed.

Lemma eventSource_stays_run (inputs : list Input) :
  forall s, _eventSource (this s) <> None ->
            _eventSource (this (run s inputs)) <> None.
Proof.
  induction inputs as [| i inputs IH]; intros s H; simpl; [assumption |].
  apply IH. now apply eventSource_stays.
Qed.

(** Only the ["endpoint"] listener assigns [_endpoint]. *)
Lemma endpoint_stays (s : State) (i : Input) :
  (forall es data, i <> Event_endpoint es data) ->
  _endpoint (this (step s i)) = _endpoint (this s).
Proof.
  intros H. destruct i; unfold step.
  - unfold start. cbn. destruct (_eventSource (this s)); reflexivity.
  - now rewrite this_close.
  - now rewrite this_send.
  - reflexivity.
  - reflexivity.
  - reflexivity.
  - unfold listening. destruct (object_at (sources s) es); [| reflexivity].
    now rewrite this_EventSource_onerror.
  - now elim (H es data).
  - unfold listening. destruct (object_at (sources s) es); [| reflexivity].
    now rewrite this_EventSource_onmessage.
  - now rewrite this_EventSource_init_fetch.
  - destruct (waiting_for r (awaiting s)) as [k |]; [| reflexivity].
    destruct (resume k answer (resumed r s)) as [s' |] eqn:E; [| reflexivity].
    apply this_resume in E. now destruct E as [-> | [es ->]].
Qed.

Lemma endpoint_stays_run (inputs : list Input) :
  forall s,
    (forall es data, ~ In (Event_endpoint es data) inputs) ->
    _endpoint (this (run s inputs)) = _endpoint (this s).
Proof.
  induction inputs as [| i inputs IH]; intros s H; simpl; [reflexivity |].
  rewrite IH.
  - apply endpoint_stays. intros es data ->. apply (H es data). now left.
  - intros es data Hin. apply (H es data). now right.
Qed.

(** *** [start] *)

(** After a first [start()], the promise it returned waits for the promise
    of the [EventSource] it opened. *)
Lemma start_is_pending (s : State) :
  _eventSource (this s) = None ->
  let s' := step s Call_start in
  object_at (sources s') (length (sources s)) = Some (S (length (promises s))) /\
  awaits (promises s') (S (length (promises s))) (length (promises s)).
Proof.
  intros H. cbn. unfold start. cbn. rewrite H. cbn. split.
  - now rewrite Nat.eqb_refl.
  - eapply awaits_adopter.
    + apply (object_at_newest (mkPromise Pending (Some (length (promises s))))).
    + lia.
    + apply awaits_itself. rewrite outcome_older by (simpl; lia).
      apply (outcome_newest (mkPromise Pending None)).
Qed.

(** C6.  A first [start()] opens one [EventSource] on the target address and
    stays pending.  Once an [EventSource] exists, whatever happens next
    (so whether the first [start()] is still pending or has succeeded), a
    further [start()] is rejected with the "already started" error, opens
    nothing and changes nothing in the transport. *)
Theorem start_opens_one_channel (s : State) :
  (_eventSource (this s) = None ->
   let s' := step s Call_start in
   trace s' =
     trace s ++
     [new_EventSource (length (sources s)) (href (_url (this s)))
        (_eventSourceInit (this s));
      new_AbortController (length (sources s))] /\
   _eventSource (this s') = Some (length (sources s)) /\
   outcome (promises s') (length (promises s)) = Some Pending) /\
  (forall inputs : list Input,
   _eventSource (this s) <> None ->
   let s1 := run s inputs in
   let s' := step s1 Call_start in
   outcome (promises s') (length (promises s1)) = Some (Rejected AlreadyStarted) /\
   trace s' = trace s1 /\
   times is_new_EventSource (trace s') = times is_new_EventSource (trace s1) /\
   this s' = this s1 /\
   sources s' = sources s1).
Proof.
  split.
  - intros H. cbn. unfold start. cbn. rewrite H. cbn.
    rewrite <- app_assoc. repeat split.
    rewrite outcome_older by (simpl; lia).
    apply (outcome_newest (mkPromise Pending None)).
  - intros inputs H. cbn.
    pose proof (eventSource_stays_run inputs s H) as Hrun.
    unfold start. cbn.
    destruct (_eventSource (this (run s inputs))) as [es |]; [| easy].
    cbn. rewrite Nat.eqb_refl. cbn. repeat split.
    apply (outcome_newest (mkPromise (Rejected AlreadyStarted) None)).
Qed.

(** *** [close] *)

Lemma close_does (s : State) :
  close s =
  mkState (this s) (mkPromise Fulfilled None :: promises s) (sources s)
    (awaiting s) (next_request s)
    (trace s ++ aborted (this s) ++ closed (this s) ++ close_observed (this s)).
Proof.
  destruct s as [t ps so aw nr tr]. destruct t as [es ep ac u ei ri ap oc oe om].
  unfold close, onclose_, aborted, closed, close_observed. cbn.
  destruct ac, es, oc; elementary; cbn; rewrite Nat.eqb_refl; cbn;
    rewrite <- ?app_assoc, ?app_nil_r; reflexivity.
Qed.

(** C4, as the code has it.  [close()] can be called in every state, also on
    a transport that was never started or is already closed: it aborts the
    current controller and closes the current [EventSource] when they
    exist, invokes the close callback once, and its promise is fulfilled.
    It does so on every call: a second [close()] repeats all of it, so two
    calls in succession invoke the close callback twice. *)
Theorem close_fires_on_every_call (s : State) :
  onclose (this s) = true ->
  let s1 := step s Call_close in
  let s2 := step s1 Call_close in
  trace s1 = trace s ++ aborted (this s) ++ closed (this s) ++ [call_onclose] /\
  outcome (promises s1) (length (promises s)) = Some Fulfilled /\
  this s1 = this s /\
  trace s2 = trace s1 ++ aborted (this s) ++ closed (this s) ++ [call_onclose] /\
  outcome (promises s2) (length (promises s1)) = Some Fulfilled /\
  times is_onclose (trace s2) = times is_onclose (trace s) + 2.
Proof.
  intros H. cbn zeta. unfold step. rewrite !close_does. cbn.
  unfold close_observed. rewrite H.
  repeat split.
  - apply (outcome_newest (mkPromise Fulfilled None)).
  - apply (outcome_newest (mkPromise Fulfilled None)).
  - unfold times, aborted, closed.
    destruct (_abortController (this s)), (_eventSource (this s));
      rewrite !filter_app, !length_app; simpl; lia.
Qed.

(** *** [send] before any endpoint *)

(** C5, as the code has it.  While no ["endpoint"] event has been received
    on any [EventSource] of the transport, [send] is rejected with "Not
    connected"; it requests nothing, invokes no callback, closes nothing
    and leaves the transport as it was. *)
Theorem send_before_any_endpoint (url : URL)
    (opts : option SSEClientTransportOptions) (inputs : list Input)
    (message : JSONRPCMessage) :
  (forall es data, ~ In (Event_endpoint es data) inputs) ->
  let s := run (initially (constructor url opts)) inputs in
  let s' := step s (Call_send message) in
  outcome (promises s') (length (promises s)) = Some (Rejected NotConnected) /\
  trace s' = trace s /\
  awaiting s' = awaiting s /\
  this s' = this s.
Proof.
  intros H. cbn zeta.
  pose proof (endpoint_stays_run inputs (initially (constructor url opts)) H) as E.
  cbn in E. unfold step, send. cbn. rewrite E. cbn.
  rewrite Nat.eqb_refl. cbn. repeat split.
  apply (outcome_newest (mkPromise (Rejected NotConnected) None)).
Qed.

(** *** Inbound messages *)

Lemma run_cons (s : State) (i : Input) (inputs : list Input) :
  run s (i :: inputs) = run (step s i) inputs.
Proof. reflexivity. Qed.

Lemma message_events (es g : nat) (datas : list string) :
  forall s,
    object_at (sources s) es = Some g ->
    onerror (this s) = true ->
    onmessage (this s) = true ->
    let s' := run s (map (Event_message es) datas) in
    trace s' =
      trace s ++
      map (fun data =>
             match JSONRPCMessageSchema_parse data with
             | inl error => call_onerror error
             | inr message => call_onmessage message
             end) datas /\
    this s' = this s /\ promises s' = promises s /\
    sources s' = sources s /\ awaiting s' = awaiting s.
Proof.
  induction datas as [| data datas IH]; intros s Hes He Hm; cbn zeta.
  - simpl. rewrite app_nil_r. repeat split.
  - rewrite map_cons, run_cons. simpl map.
    set (s1 := step s (Event_message es data)).
    assert (H1 : trace s1 =
                 trace s ++
                 [match JSONRPCMessageSchema_parse data with
                  | inl error => call_onerror error
                  | inr message => call_onmessage message
                  end] /\
                 this s1 = this s /\ promises s1 = promises s /\
                 sources s1 = sources s /\ awaiting s1 = awaiting s).
    { subst s1. unfold step, listening. rewrite Hes.
      unfold EventSource_onmessage, onerror_, onmessage_.
      destruct (JSONRPCMessageSchema_parse data); rewrite ?He, ?Hm;
        repeat split. }
    destruct H1 as (T1 & Th1 & Pr1 & So1 & Aw1).
    destruct (IH s1) as (T & Th & Pr & So & Aw).
    + now rewrite So1.
    + now rewrite Th1.
    + now rewrite Th1.
    + rewrite T, T1, <- app_assoc. repeat split; congruence.
Qed.

Lemma decoded_events (datas : list string) (messages : list JSONRPCMessage) :
  decode_to datas messages ->
  map (fun data =>
         match JSONRPCMessageSchema_parse data with
         | inl error => call_onerror error
         | inr message => call_onmessage message
         end) datas = map call_onmessage messages.
Proof.
  induction 1 as [| data message datas messages H _ IH]; simpl.
  - reflexivity.
  - now rewrite H, IH.
Qed.

Lemma times_app (f : Output -> bool) (a b : list Output) :
  times f (a ++ b) = times f a + times f b.
Proof. unfold times. now rewrite filter_app, length_app. Qed.

Lemma times_delivered (messages : list JSONRPCMessage) :
  times is_onerror (map call_onmessage messages) = 0 /\
  times is_onmessage (map call_onmessage messages) = length messages.
Proof.
  unfold times. induction messages as [| m messages [IHe IHm]]; simpl.
  - split; reflexivity.
  - split; [exact IHe | now rewrite IHm].
Qed.

(** C7.  When [EventSource] [es] delivers valid payloads with one malformed
    payload among them, the transport invokes [onmessage] with every
    decoded message in arrival order, and [onerror] exactly once, at the
    place of the malformed payload, with the decoder's error.  It does
    nothing else: the [EventSource] is not closed and the transport, its
    promises and its pending requests are as before. *)
Theorem one_malformed_message (s : State) (es g : nat)
    (before after : list string) (malformed : string) (error : Error)
    (first last : list JSONRPCMessage) :
  object_at (sources s) es = Some g ->
  onerror (this s) = true ->
  onmessage (this s) = true ->
  decode_to before first ->
  JSONRPCMessageSchema_parse malformed = inl error ->
  decode_to after last ->
  let s' := run s (map (Event_message es) (before ++ malformed :: after)) in
  trace s' =
    trace s ++
    map call_onmessage first ++ [call_onerror error] ++ map call_onmessage last /\
  times is_onerror (trace s') = times is_onerror (trace s) + 1 /\
  times is_onmessage (trace s') =
    times is_onmessage (trace s) + length first + length last /\
  this s' = this s /\ promises s' = promises s /\
  sources s' = sources s /\ awaiting s' = awaiting s.
Proof.
  intros Hes He Hm Hb Hbad Ha.
  destruct (message_events es (before ++ malformed :: after) s Hes He Hm)
    as (T & rest).
  assert (T' : trace (run s (map (Event_message es) (before ++ malformed :: after))) =
               trace s ++ map call_onmessage first ++ [call_onerror error] ++
               map call_onmessage last).
  { rewrite T. f_equal. rewrite map_app. simpl.
    now rewrite Hbad, (decoded_events Hb), (decoded_events Ha). }
  cbn zeta. rewrite T'.
  destruct (times_delivered first) as [Fe Fm].
  destruct (times_delivered last) as [Le Lm].
  split; [reflexivity |].
  split; [rewrite !times_app, Fe, Le; cbn; lia |].
  split; [rewrite !times_app, Fm, Lm; cbn; lia |].
  exact rest.
Qed.

(** *** The ["endpoint"] event *)

Lemma no_callback_in_aborted (t : Transport) :
  times is_onerror (aborted t) = 0 /\ times is_onclose (aborted t) = 0.
Proof. unfold aborted. destruct (_abortController t); split; reflexivity. Qed.

Lemma no_callback_in_closed (t : Transport) :
  times is_onerror (closed t) = 0 /\ times is_onclose (closed t) = 0.
Proof. unfold closed. destruct (_eventSource t); split; reflexivity. Qed.

(** C3.  An ["endpoint"] event whose address has another origin than the
    target address rejects every promise that waits for this
    [EventSource] (the pending [start()]) with the origin-mismatch
    error, invokes [onerror] once with it, aborts the controller and closes
    the [EventSource] the transport holds, and invokes [onclose] once. *)
Theorem endpoint_origin_mismatch (s : State) (es g p : nat) (data : string)
    (endpoint : URL) :
  object_at (sources s) es = Some g ->
  awaits (promises s) g p ->
  URL_new data (_url (this s)) = inr endpoint ->
  origin endpoint <> origin (_url (this s)) ->
  onerror (this s) = true ->
  onclose (this s) = true ->
  let error := EndpointOriginMismatch (origin endpoint) in
  let s' := step s (Event_endpoint es data) in
  outcome (promises s') p = Some (Rejected error) /\
  trace s' =
    trace s ++ [call_onerror error] ++
    aborted (this s) ++ closed (this s) ++ [call_onclose] /\
  (forall current, _eventSource (this s) = Some current ->
                   In (EventSource_close current) (trace s')) /\
  times is_onerror (trace s') = times is_onerror (trace s) + 1 /\
  times is_onclose (trace s') = times is_onclose (trace s) + 1.
Proof.
  intros Hes Hp Hurl Horigin He Hc. cbn zeta.
  apply String.eqb_neq in Horigin.
  assert (E : step s (Event_endpoint es data) =
              mkState (set_endpoint endpoint (this s))
                (mkPromise Fulfilled None ::
                 settle (promises s) g
                   (Rejected (EndpointOriginMismatch (origin endpoint))))
                (sources s) (awaiting s) (next_request s)
                (trace s ++
                 [call_onerror (EndpointOriginMismatch (origin endpoint))] ++
                 aborted (this s) ++ closed (this s) ++ [call_onclose])).
  { unfold step, listening. rewrite Hes. unfold EventSource_endpoint.
    rewrite Hurl. cbn -[close]. rewrite Horigin. cbn -[close].
    rewrite close_does. unfold onerror_. cbn. rewrite He. cbn.
    unfold close_observed. cbn. rewrite Hc, <- app_assoc. reflexivity. }
  rewrite E. cbn [promises trace this].
  pose proof (awaits_lt Hp) as Hg. pose proof (awaits_le Hp) as Hpg.
  repeat split.
  - rewrite outcome_older by (rewrite length_settle; lia).
    now apply settle_awaits.
  - intros current Hcur. rewrite !in_app_iff. right. right. right. left.
    unfold closed. rewrite Hcur. now left.
  - rewrite !times_app.
    rewrite (proj1 (no_callback_in_aborted _)), (proj1 (no_callback_in_closed _)).
    cbn. lia.
  - rewrite !times_app.
    rewrite (proj2 (no_callback_in_aborted _)), (proj2 (no_callback_in_closed _)).
    cbn. lia.
Qed.

(** *** Suspended segments *)

Lemma waiting_for_newest (r : nat) (k : Continuation)
    (w : list (nat * Continuation)) :
  waiting_for r ((r, k) :: w) = Some k.
Proof. simpl. now rewrite Nat.eqb_refl. Qed.

Lemma waiting_for_resumed (r : nat) (w : list (nat * Continuation)) :
  waiting_for r (filter (fun e => negb (fst e =? r)) w) = None.
Proof.
  induction w as [| [r' k] w IH]; simpl; [reflexivity |].
  destruct (Nat.eqb_spec r' r) as [-> | Hne]; simpl; [assumption |].
  destruct (Nat.eqb_spec r' r); [contradiction | assumption].
Qed.

(** The answer to the request a segment has just made resumes it. *)
Lemma step_answer (s : State) (q : Request) (k : Continuation) (r : nat)
    (answer : Answer) :
  r = next_request s ->
  step (await q k s) (Settled r answer) =
  match
    resume k answer
      (mkState (this s) (promises s) (sources s)
         (filter (fun e => negb (fst e =? next_request s)) (awaiting s))
         (S (next_request s))
         (trace s ++ [requested (next_request s) q]))
  with
  | Some s' => s'
  | None => await q k s
  end.
Proof.
  intros ->. unfold step, await, resumed. cbn. now rewrite Nat.eqb_refl.
Qed.

Lemma _startOrAuth_does (awaited_by : nat) (s : State) :
  _startOrAuth awaited_by s =
  mkState
    (set_abortController (length (sources s))
       (set_eventSource (length (sources s)) (this s)))
    (mkPromise Pending (Some awaited_by) :: promises s)
    (length (promises s) :: sources s)
    (awaiting s) (next_request s)
    (trace s ++
     [new_EventSource (length (sources s)) (href (_url (this s)))
        (_eventSourceInit (this s));
      new_AbortController (length (sources s))]).
Proof.
  unfold _startOrAuth. elementary. cbn. now rewrite <- app_assoc.
Qed.

(** *** The authentication retry *)

Lemma _authThenStart_asks (then_ : nat) (provider : OAuthClientProvider)
    (s : State) :
  _authProvider (this s) = Some provider ->
  _authThenStart then_ s =
  await (Auth provider (_url (this s))) (in_authThenStart (length (promises s)))
    (with_promise (Some then_) s).
Proof. intros H. unfold _authThenStart. cbn. now rewrite H. Qed.

(** C9.  [_authThenStart], whose outcome goes to the [resolve] and [reject]
    of promise [then_], for which promise [p] waits: without a provider it
    rejects at once with "No auth provider" and asks nothing; with one it
    calls [auth] with the provider and the target address.  If [auth]
    throws, the thrown value is passed to [onerror] and rejects [p]
    unchanged; if its result is not ["AUTHORIZED"], [p] is rejected with
    "Unauthorized" and nothing further is requested or opened.  The same
    two outcomes hold where [send] runs the exchange itself, with the
    rejection also passed to [onerror]. *)
Theorem authentication_retry_fails (s : State) (p : nat) :
  onerror (this s) = true ->
  (forall then_ : nat,
    awaits (promises s) then_ p ->
    let a := length (promises s) in
    let r := next_request s in
    let s1 := _authThenStart then_ s in
    match _authProvider (this s) with
    | None =>
        outcome (promises s1) a = Some (Rejected NoAuthProvider) /\
        outcome (promises s1) p = Some (Rejected NoAuthProvider) /\
        trace s1 = trace s /\ awaiting s1 = awaiting s
    | Some provider =>
        trace s1 = trace s ++ [requested r (Auth provider (_url (this s)))] /\
        outcome (promises s1) p = Some Pending /\
        (forall error : Error,
          let s2 := step s1 (Settled r (throws error)) in
          trace s2 = trace s1 ++ [call_onerror error] /\
          outcome (promises s2) a = Some (Rejected error) /\
          outcome (promises s2) p = Some (Rejected error) /\
          sources s2 = sources s /\
          waiting_for r (awaiting s2) = None) /\
        (forall result : AuthResult,
          AUTHORIZED result = false ->
          let s2 := step s1 (Settled r (auth_is result)) in
          trace s2 = trace s1 /\
          outcome (promises s2) a = Some (Rejected Unauthorized) /\
          outcome (promises s2) p = Some (Rejected Unauthorized) /\
          sources s2 = sources s /\
          waiting_for r (awaiting s2) = None)
    end) /\
  (forall (message : JSONRPCMessage) (q r : nat),
    waiting_for r (awaiting s) = Some (in_send_auth message q) ->
    awaits (promises s) q p ->
    (forall error : Error,
      let s2 := step s (Settled r (throws error)) in
      trace s2 = trace s ++ [call_onerror error] /\
      outcome (promises s2) p = Some (Rejected error) /\
      waiting_for r (awaiting s2) = None) /\
    (forall result : AuthResult,
      AUTHORIZED result = false ->
      let s2 := step s (Settled r (auth_is result)) in
      trace s2 = trace s ++ [call_onerror Unauthorized] /\
      outcome (promises s2) p = Some (Rejected Unauthorized) /\
      waiting_for r (awaiting s2) = None)).
Proof.
  intros He. split.
  - intros then_ Hp. cbn zeta.
    pose proof (awaits_lt Hp) as Hlt.
    assert (Hchain : awaits (mkPromise Pending (Some then_) :: promises s)
                       (length (promises s)) p).
    { eapply awaits_adopter.
      - apply object_at_newest.
      - assumption.
      - now apply awaits_cons. }
    assert (Hself : awaits (mkPromise Pending (Some then_) :: promises s)
                      (length (promises s)) (length (promises s))).
    { apply awaits_itself. apply (outcome_newest (mkPromise Pending (Some then_))). }
    destruct (_authProvider (this s)) as [provider |] eqn:Hprov.
    + rewrite (_authThenStart_asks then_ s Hprov).
      split; [reflexivity |]. split; [exact (awaits_pending Hchain) |].
      split.
      * intros error. cbn zeta.
        rewrite step_answer by reflexivity. cbn -[settle]. unfold onerror_. cbn -[settle].
        rewrite He. cbn -[settle].
        repeat split; try (now apply settle_awaits).
        apply waiting_for_resumed.
      * intros result Hresult. cbn zeta.
        rewrite step_answer by reflexivity. cbn -[settle]. rewrite Hresult. cbn -[settle].
        repeat split; try (now apply settle_awaits).
        apply waiting_for_resumed.
    + unfold _authThenStart. cbn -[settle]. rewrite Hprov. cbn -[settle].
      repeat split; now apply settle_awaits.
  - intros message q r Hr Hq. split.
    + intros error. cbn zeta. unfold step. rewrite Hr. cbn -[settle].
      unfold onerror_. cbn -[settle]. rewrite He. cbn -[settle].
      repeat split.
      * now apply settle_awaits.
      * apply waiting_for_resumed.
    + intros result Hresult. cbn zeta. unfold step. rewrite Hr. cbn -[settle].
      rewrite Hresult. cbn -[settle]. unfold onerror_. cbn -[settle].
      rewrite He. cbn -[settle].
      repeat split.
      * now apply settle_awaits.
      * apply waiting_for_resumed.
Qed.

(** *** A 401 on the stream *)

(** C2.  When an [EventSource] reports an error with code 401 and a provider
    is configured, the transport calls [auth] with the provider and the
    target address and reports nothing.  When [auth] answers
    ["AUTHORIZED"], it creates a new [EventSource] on the target address
    and a new controller, and holds these from then on; the earlier
    [EventSource] is neither closed nor used again.  A promise that waited
    for the earlier [EventSource] (the pending [start()]) is still pending
    then: it is fulfilled by the ["endpoint"] event of the new
    [EventSource], and rejected when the new one fails. *)
Theorem reconnect_after_401 (s : State) (es g p : nat)
    (message : option string) (provider : OAuthClientProvider)
    (result : AuthResult) :
  object_at (sources s) es = Some g ->
  awaits (promises s) g p ->
  _authProvider (this s) = Some provider ->
  AUTHORIZED result = true ->
  let r := next_request s in
  let fresh := length (sources s) in
  let s1 := step s (Event_error es (Some 401) message) in
  let s2 := step s1 (Settled r (auth_is result)) in
  trace s1 = trace s ++ [requested r (Auth provider (_url (this s)))] /\
  outcome (promises s1) p = Some Pending /\
  trace s2 =
    trace s1 ++
    [new_EventSource fresh (href (_url (this s))) (_eventSourceInit (this s));
     new_AbortController fresh] /\
  fresh <> es /\
  _eventSource (this s2) = Some fresh /\
  _abortController (this s2) = Some fresh /\
  outcome (promises s2) p = Some Pending /\
  (forall (data : string) (endpoint : URL),
    URL_new data (_url (this s)) = inr endpoint ->
    origin endpoint = origin (_url (this s)) ->
    let s3 := step s2 (Event_endpoint fresh data) in
    outcome (promises s3) p = Some Fulfilled /\
    _endpoint (this s3) = Some endpoint /\
    trace s3 = trace s2) /\
  (forall (code : option nat) (why : option string),
    is_401 code = false ->
    let s3 := step s2 (Event_error fresh code why) in
    outcome (promises s3) p = Some (Rejected (SseError code why))).
Proof.
  intros Hes Hp Hprov Hresult. cbn zeta.
  pose proof (awaits_lt Hp) as Hlt. pose proof (awaits_le Hp) as Hle.
  pose proof (object_at_lt _ _ Hes) as Hes_lt.
  assert (E1 : step s (Event_error es (Some 401) message) =
               await (Auth provider (_url (this s)))
                 (in_authThenStart (length (promises s)))
                 (with_promise (Some g) s)).
  { unfold step, listening. rewrite Hes. unfold EventSource_onerror.
    rewrite Hprov. change (is_401 (Some 401)) with true. cbv iota.
    now apply _authThenStart_asks. }
  rewrite E1.
  rewrite step_answer by reflexivity. cbn -[settle _startOrAuth]. rewrite Hresult.
  cbn -[settle _startOrAuth].
  rewrite _startOrAuth_does. cbn -[settle].
  set (ps := mkPromise Pending (Some (length (promises s))) ::
             mkPromise Pending (Some g) :: promises s).
  assert (Hchain : awaits ps (S (length (promises s))) p).
  { subst ps. eapply awaits_adopter.
    - apply (object_at_newest _ (_ :: promises s)).
    - lia.
    - eapply awaits_adopter.
      + rewrite object_at_older by (simpl; lia). apply object_at_newest.
      + assumption.
      + now apply awaits_cons, awaits_cons. }
  split; [reflexivity |].
  split; [rewrite outcome_older by lia; exact (awaits_pending Hp) |].
  split; [reflexivity |].
  split; [lia |].
  split; [reflexivity |].
  split; [reflexivity |].
  split; [exact (awaits_pending Hchain) |].
  split.
  - intros data endpoint Hurl Horigin. cbn zeta.
    unfold step, listening. cbn -[settle]. rewrite Nat.eqb_refl.
    unfold EventSource_endpoint. cbn -[settle]. rewrite Hurl. cbn -[settle].
    rewrite Horigin, String.eqb_refl. cbn -[settle].
    repeat split. now apply settle_awaits.
  - intros code why Hcode. cbn zeta.
    unfold step, listening. cbn -[settle]. rewrite Nat.eqb_refl.
    unfold EventSource_onerror. rewrite Hcode. cbn -[settle].
    unfold onerror_. cbn -[settle].
    destruct (onerror (this s)); cbn -[settle]; now apply settle_awaits.
Qed.

(** *** [send] *)

Lemma send_asks_tokens (message : JSONRPCMessage) (returned_to : option nat)
    (s : State) (endpoint : URL) (provider : OAuthClientProvider) :
  _endpoint (this s) = Some endpoint ->
  _authProvider (this s) = Some provider ->
  send message returned_to s =
  await (Tokens provider)
    (in_commonHeaders (for_send message (length (promises s))))
    (with_promise returned_to s).
Proof. intros He Hp. unfold send, _commonHeaders. cbn. now rewrite He, Hp. Qed.

Lemma send_posts (message : JSONRPCMessage) (returned_to : option nat)
    (s : State) (endpoint : URL) :
  _endpoint (this s) = Some endpoint ->
  _authProvider (this s) = None ->
  send message returned_to s =
  await (Fetch (Some endpoint) (send_init (this s) message []))
    (in_send_fetch message (length (promises s)))
    (with_promise returned_to s).
Proof.
  intros He Hp. unfold send, _commonHeaders, with_headers, send_post. cbn.
  now rewrite He, Hp.
Qed.

Lemma not_ok_401 (response : Response) :
  status response = 401 -> ok response = false.
Proof. intros H. unfold ok. now rewrite H. Qed.

(** C1, as the code has it.  [send] with a provider, when the POST is
    answered 401 and [auth] then answers ["AUTHORIZED"]: the transport calls
    [send] again with the same message, once for this 401.  That call asks
    the provider for its tokens again and posts the same body to the same
    endpoint, whatever the answer to it will be: two POSTs so far, nothing
    reported, the original call pending.  When the second POST is answered
    with a success status, nothing more is requested and the promise of
    the original call is fulfilled, [onerror] not having been invoked.
    When it is answered 401 and [auth] answers ["AUTHORIZED"] again, the
    message is posted a third time: the resend is not limited to one. *)
Theorem resend_after_401 (s : State) (message : JSONRPCMessage)
    (endpoint : URL) (provider : OAuthClientProvider)
    (tokens1 tokens2 : option OAuthTokens) (first : Response)
    (result : AuthResult) :
  _endpoint (this s) = Some endpoint ->
  _authProvider (this s) = Some provider ->
  status first = 401 ->
  AUTHORIZED result = true ->
  let r := next_request s in
  let p := length (promises s) in
  let POST1 := send_init (this s) message (bearer tokens1) in
  let POST2 := send_init (this s) message (bearer tokens2) in
  let resent :=
    run s
      [Call_send message;
       Settled r (tokens_are tokens1);
       Settled (1 + r) (response_is first);
       Settled (2 + r) (auth_is result);
       Settled (3 + r) (tokens_are tokens2)] in
  trace resent =
    trace s ++
    [requested r (Tokens provider);
     requested (1 + r) (Fetch (Some endpoint) POST1);
     requested (2 + r) (Auth provider (_url (this s)));
     requested (3 + r) (Tokens provider);
     requested (4 + r) (Fetch (Some endpoint) POST2)] /\
  init_body POST1 = JSON_stringify message /\
  init_body POST2 = JSON_stringify message /\
  times is_POST (trace resent) = times is_POST (trace s) + 2 /\
  times is_onerror (trace resent) = times is_onerror (trace s) /\
  outcome (promises resent) p = Some Pending /\
  (forall second : Response,
    ok second = true ->
    let s' := step resent (Settled (4 + r) (response_is second)) in
    trace s' = trace resent /\
    next_request s' = next_request resent /\
    waiting_for (4 + r) (awaiting s') = None /\
    outcome (promises s') p = Some Fulfilled) /\
  (forall (second : Response) (again : AuthResult)
          (tokens3 : option OAuthTokens),
    status second = 401 ->
    AUTHORIZED again = true ->
    let s' :=
      run resent
        [Settled (4 + r) (response_is second);
         Settled (5 + r) (auth_is again);
         Settled (6 + r) (tokens_are tokens3)] in
    times is_POST (trace s') = times is_POST (trace s) + 3 /\
    times is_onerror (trace s') = times is_onerror (trace s) /\
    outcome (promises s') p = Some Pending).
Proof.
  intros He Hp H401 Hauth. cbn zeta.
  assert (E : exists X : State,
             run s
               [Call_send message;
                Settled (next_request s) (tokens_are tokens1);
                Settled (1 + next_request s) (response_is first);
                Settled (2 + next_request s) (auth_is result);
                Settled (3 + next_request s) (tokens_are tokens2)] =
             await (Fetch (Some endpoint) (send_init (this s) message (bearer tokens2)))
               (in_send_fetch message (S (length (promises s)))) X /\
             this X = this s /\
             next_request X = 4 + next_request s /\
             promises X =
               mkPromise Pending (Some (length (promises s))) ::
               mkPromise Pending None :: promises s /\
             trace X =
               trace s ++
               [requested (next_request s) (Tokens provider);
                requested (1 + next_request s)
                  (Fetch (Some endpoint) (send_init (this s) message (bearer tokens1)));
                requested (2 + next_request s) (Auth provider (_url (this s)));
                requested (3 + next_request s) (Tokens provider)]).
  { unfold run. cbn [fold_left].
    change (step s (Call_send message)) with (send message None s).
    rewrite (send_asks_tokens message None s He Hp).
    rewrite step_answer by reflexivity.
    cbn -[step send_init bearer settle send_post]. unfold send_post.
    rewrite step_answer by reflexivity.
    cbn -[step send_init bearer settle send].
    rewrite (not_ok_401 _ H401), H401, Hp, He.
    cbn -[step send_init bearer settle send].
    rewrite step_answer by reflexivity.
    cbn -[step send_init bearer settle send].
    rewrite Hauth.
    cbn -[step send_init bearer settle send].
    erewrite send_asks_tokens; [| exact He | exact Hp].
    rewrite step_answer by reflexivity.
    cbn -[step send_init bearer settle await]. unfold send_post.
    cbn -[step send_init bearer settle await]. rewrite He.
    eexists. split; [reflexivity |].
    cbn. repeat split. now rewrite <- !app_assoc. }
  destruct E as (X & E & Hthis & Hnext & Hps & Htrace). rewrite E. clear E.
  assert (HeX : _endpoint (this X) = Some endpoint) by now rewrite Hthis.
  assert (HpX : _authProvider (this X) = Some provider) by now rewrite Hthis.
  assert (Hchain : awaits (promises X) (S (length (promises s))) (length (promises s))).
  { rewrite Hps. eapply awaits_adopter.
    - apply (object_at_newest _ (_ :: promises s)).
    - lia.
    - apply awaits_itself. rewrite outcome_older by (simpl; lia).
      apply (outcome_newest (mkPromise Pending None)). }
  split; [cbn; now rewrite Htrace, Hnext, <- app_assoc |].
  split; [reflexivity |]. split; [reflexivity |].
  split; [cbn -[times send_init]; rewrite Htrace, !times_app; cbn; lia |].
  split; [cbn -[times send_init]; rewrite Htrace, !times_app; cbn; lia |].
  split; [exact (awaits_pending Hchain) |].
  split.
  - intros second Hok. cbn zeta.
    rewrite step_answer by (now rewrite Hnext).
    cbn -[settle send_init]. rewrite Hok. cbn -[settle send_init].
    split; [reflexivity |]. split; [reflexivity |].
    split; [rewrite Hnext; apply waiting_for_resumed |].
    now apply settle_awaits.
  - intros second again tokens3 Hsecond Hagain. cbn zeta.
    unfold run. cbn [fold_left].
    rewrite step_answer by (now rewrite Hnext).
    cbn -[step send_init bearer settle send].
    rewrite (not_ok_401 _ Hsecond), Hsecond, HpX.
    cbn -[step send_init bearer settle send].
    rewrite step_answer by (cbn; now rewrite Hnext).
    cbn -[step send_init bearer settle send].
    rewrite Hagain.
    cbn -[step send_init bearer settle send].
    erewrite send_asks_tokens; [| exact HeX | exact HpX].
    rewrite step_answer by (cbn; now rewrite Hnext).
    cbn -[send_init bearer settle times]. rewrite Htrace, Hps.
    split; [rewrite !times_app; cbn; lia |].
    split; [rewrite !times_app; cbn; lia |].
    rewrite outcome_older by (simpl; lia).
    rewrite outcome_older by (simpl; lia).
    apply (outcome_newest (mkPromise Pending None)).
Qed.

(** *** Records and header lists *)

Lemma obj_get_set (k k' v : string) (o : Obj) :
  obj_get k (obj_set k' v o) = if String.eqb k' k then Some v else obj_get k o.
Proof.
  induction o as [| [k0 v0] o IH]; simpl; [reflexivity |].
  destruct (String.eqb_spec k0 k') as [-> | Hne]; simpl.
  - now destruct (String.eqb k' k).
  - destruct (String.eqb_spec k0 k) as [-> | Hk]; [| exact IH].
    apply String.eqb_neq in Hne. rewrite String.eqb_sym in Hne.
    now rewrite Hne.
Qed.

Lemma obj_get_absent (k : string) (o : Obj) :
  ~ In k (map fst o) -> obj_get k o = None.
Proof.
  induction o as [| [k0 v0] o IH]; simpl; intros H; [reflexivity |].
  destruct (String.eqb_spec k0 k) as [-> | _].
  - elim H. now left.
  - apply IH. intros Hin. apply H. now right.
Qed.

Lemma obj_get_assign (k : string) (source : Obj) :
  NoDup (map fst source) ->
  forall target,
    obj_get k (assign target source) =
    match obj_get k source with
    | Some v => Some v
    | None => obj_get k target
    end.
Proof.
  unfold assign.
  induction source as [| [k0 v0] source IH]; simpl; intros Hnd target.
  - reflexivity.
  - inversion Hnd as [| ? ? Hnotin Hnd']; subst.
    rewrite IH by assumption. rewrite obj_get_set.
    destruct (String.eqb_spec k0 k) as [-> | _].
    + now rewrite (obj_get_absent _ _ Hnotin).
    + reflexivity.
Qed.

(** [{ ...a, ...b }]: a property of [b] wins over the same property of [a]. *)
Lemma obj_get_spread (k : string) (a b : Obj) :
  NoDup (map fst a) -> NoDup (map fst b) ->
  obj_get k (spread a b) =
  match obj_get k b with
  | Some v => Some v
  | None => obj_get k a
  end.
Proof.
  intros Ha Hb. unfold spread. rewrite obj_get_assign by assumption.
  destruct (obj_get k b); [reflexivity |].
  rewrite obj_get_assign by assumption. now destruct (obj_get k a).
Qed.

Lemma Headers_new_map (init : Obj) :
  Headers_new init = map (fun kv => (lower (fst kv), snd kv)) init.
Proof.
  unfold Headers_new, Headers_append.
  assert (G : forall acc : Headers,
             fold_left (fun h kv => h ++ [(lower (fst kv), snd kv)]) init acc =
             acc ++ map (fun kv => (lower (fst kv), snd kv)) init).
  { induction init as [| kv init IH]; intros acc; simpl.
    - now rewrite app_nil_r.
    - now rewrite IH, <- app_assoc. }
  apply (G []).
Qed.

Lemma filter_none (n : string) (h : Headers) :
  filter (named n) (filter (fun e => negb (named n e)) h) = [].
Proof.
  induction h as [| e h IH]; simpl; [reflexivity |].
  destruct (named n e) eqn:E; simpl; [assumption |]. now rewrite E.
Qed.

Lemma filter_set_first (n v : string) (h : Headers) :
  existsb (named n) h = true -> filter (named n) (set_first n v h) = [(n, v)].
Proof.
  induction h as [| e h IH]; simpl; [discriminate |].
  destruct (named n e) eqn:E; simpl.
  - intros _. unfold named at 1. simpl. rewrite String.eqb_refl.
    now rewrite filter_none.
  - intros H. rewrite E. now apply IH.
Qed.

Lemma filter_absent (n : string) (h : Headers) :
  existsb (named n) h = false -> filter (named n) h = [].
Proof.
  induction h as [| e h IH]; simpl; [reflexivity |].
  destruct (named n e); simpl; [discriminate | exact IH].
Qed.

(** [headers.set(name, value)] leaves exactly one value under [name]. *)
Lemma Headers_get_set (h : Headers) (name value : string) :
  Headers_get (Headers_set h name value) name = Some value.
Proof.
  unfold Headers_get, Headers_set.
  destruct (existsb (named (lower name)) h) eqn:E.
  - now rewrite filter_set_first.
  - rewrite filter_app, (filter_absent _ _ E). simpl.
    unfold named. simpl. now rewrite String.eqb_refl.
Qed.

(** It leaves the other names as they were. *)
Lemma filter_other_set_first (n n' v : string) (h : Headers) :
  n' <> n -> filter (named n') (set_first n v h) = filter (named n') h.
Proof.
  intros Hne. apply String.eqb_neq in Hne.
  assert (Hnamed : forall e, named n e = true -> named n' e = false).
  { intros [k w]. unfold named. simpl. intros Hk.
    apply String.eqb_eq in Hk. subst k. now rewrite String.eqb_sym. }
  induction h as [| e h IH]; simpl; [reflexivity |].
  destruct (named n e) eqn:E; simpl.
  - rewrite (Hnamed e E). unfold named at 1. simpl.
    rewrite String.eqb_sym, Hne.
    clear IH. induction h as [| e' h IH]; simpl; [reflexivity |].
    destruct (named n e') eqn:E'; simpl.
    + now rewrite (Hnamed e' E').
    + now rewrite IH.
  - now rewrite IH.
Qed.

Lemma Headers_get_other (h : Headers) (name name' value : string) :
  lower name' <> lower name ->
  Headers_get (Headers_set h name value) name' = Headers_get h name'.
Proof.
  intros Hne. unfold Headers_get, Headers_set.
  destruct (existsb (named (lower name)) h).
  - now rewrite filter_other_set_first.
  - rewrite filter_app. simpl. unfold named at 2. simpl.
    apply String.eqb_neq in Hne. rewrite String.eqb_sym, Hne.
    now rewrite app_nil_r.
Qed.

Lemma assign_keys (source : Obj) :
  forall target k,
    In k (map fst (assign target source)) ->
    In k (map fst target) \/ In k (map fst source).
Proof.
  assert (Hset : forall k' v o k,
             In k (map fst (obj_set k' v o)) -> In k (map fst o) \/ k = k').
  { intros k' v o k. induction o as [| [k0 v0] o IH]; simpl.
    - intros [<- | []]. now right.
    - destruct (String.eqb k0 k'); simpl; intros [<- | H]; auto.
      destruct (IH H); auto. }
  unfold assign.
  induction source as [| [k0 v0] source IH]; simpl; intros target k H.
  - now left.
  - destruct (IH _ _ H) as [H1 | H1]; [| auto].
    destruct (Hset _ _ _ _ H1); subst; auto.
Qed.

(** No header of a given name comes out of a record that has no property
    of that name, whatever the case of its letters. *)
Lemma Headers_get_absent (o : Obj) (name : string) :
  (forall k, In k (map fst o) -> lower k <> lower name) ->
  Headers_get (Headers_new (spread [] o)) name = None.
Proof.
  intros H. unfold Headers_get. rewrite Headers_new_map.
  assert (Hkeys : forall k, In k (map fst (spread [] o)) -> lower k <> lower name).
  { intros k Hk. unfold spread in Hk. simpl in Hk.
    apply assign_keys in Hk. destruct Hk as [[] | Hk]. now apply H. }
  clear H. induction (spread [] o) as [| [k v] l IH]; simpl; [reflexivity |].
  unfold named at 1. simpl.
  destruct (String.eqb_spec (lower k) (lower name)) as [E | _].
  - elim (Hkeys k); [now left | exact E].
  - apply IH. intros k' Hk'. apply Hkeys. now right.
Qed.

(** *** The headers of a POST *)

Lemma NoDup_bearer (tokens : option OAuthTokens) : NoDup (map fst (bearer tokens)).
Proof.
  destruct tokens; simpl; [| constructor].
  constructor; [intros [] | constructor].
Qed.

Lemma Headers_get_new (o : Obj) (name : string) :
  Headers_get (Headers_new o) name = joined (values_named name o).
Proof.
  unfold Headers_get, values_named. rewrite Headers_new_map.
  assert (F : forall l : Obj,
             filter (named (lower name))
               (map (fun kv => (lower (fst kv), snd kv)) l) =
             map (fun kv => (lower (fst kv), snd kv)) (filter (same_name name) l)).
  { induction l as [| [k v] l IH]; simpl; [reflexivity |].
    unfold named at 1, same_name at 1. simpl.
    destruct (String.eqb (lower k) (lower name)); simpl; now rewrite IH. }
  rewrite F. destruct (filter (same_name name) o) as [| [k v] rest]; simpl;
    [reflexivity |].
  f_equal. generalize v. clear.
  induction rest as [| [k' v'] rest IH]; simpl; intros acc; [reflexivity |].
  apply IH.
Qed.

Lemma Headers_get_case (h : Headers) (name name' : string) :
  lower name = lower name' -> Headers_get h name = Headers_get h name'.
Proof. intros E. unfold Headers_get. now rewrite E. Qed.

Lemma values_named_cons (name k v : string) (o : Obj) :
  values_named name ((k, v) :: o) =
  if String.eqb (lower k) (lower name) then v :: values_named name o
  else values_named name o.
Proof.
  unfold values_named. simpl. unfold same_name at 1. simpl.
  now destruct (String.eqb (lower k) (lower name)).
Qed.

Lemma values_named_none (name : string) (o : Obj) :
  (forall k, In k (map fst o) -> lower k <> lower name) ->
  values_named name o = [].
Proof.
  induction o as [| [k v] o IH]; intros H; [reflexivity |].
  rewrite values_named_cons.
  destruct (String.eqb_spec (lower k) (lower name)) as [E | _].
  - elim (H k); [now left | exact E].
  - apply IH. intros k' Hk'. apply H. now right.
Qed.

(** The one property of a name that has no other spelling in the record. *)
Lemma values_named_only (k v : string) (o : Obj) :
  NoDup (map fst o) ->
  obj_get k o = Some v ->
  (forall k', In k' (map fst o) -> lower k' = lower k -> k' = k) ->
  values_named k o = [v].
Proof.
  induction o as [| [k0 v0] o IH]; simpl; intros Hnd Hget Honly; [discriminate |].
  inversion Hnd as [| ? ? Hnotin Hnd']; subst.
  rewrite values_named_cons.
  destruct (String.eqb_spec k0 k) as [-> | Hne].
  - rewrite String.eqb_refl. injection Hget as ->. f_equal.
    apply values_named_none. intros k' Hk' E.
    apply Hnotin. now rewrite <- (Honly k' (or_intror Hk') E).
  - destruct (String.eqb_spec (lower k0) (lower k)) as [E | _].
    + elim Hne. apply Honly; [now left | exact E].
    + apply IH; [assumption | assumption |].
      intros k' Hk'. apply Honly. now right.
Qed.

Lemma without_absent (k : string) (o : Obj) :
  obj_get k o = None -> without k o = o.
Proof.
  unfold without. induction o as [| [k0 v0] o IH]; simpl; [reflexivity |].
  destruct (String.eqb k0 k); simpl; [discriminate |].
  intros H. now rewrite IH.
Qed.

Lemma without_keys (k k' : string) (o : Obj) :
  In k' (map fst (without k o)) -> In k' (map fst o) /\ k' <> k.
Proof.
  unfold without. induction o as [| [k0 v0] o IH]; simpl; [intros [] |].
  destruct (String.eqb_spec k0 k) as [-> | Hne]; simpl.
  - intros H. destruct (IH H). auto.
  - intros [<- | H]; [auto |]. destruct (IH H). auto.
Qed.

Lemma values_named_without (name k : string) (o : Obj) :
  lower k <> lower name ->
  values_named name (without k o) = values_named name o.
Proof.
  intros Hne. unfold without.
  induction o as [| [k0 v0] o IH]; simpl; [reflexivity |].
  rewrite values_named_cons.
  destruct (String.eqb_spec k0 k) as [-> | _]; simpl.
  - destruct (String.eqb_spec (lower k) (lower name)); [contradiction | exact IH].
  - rewrite values_named_cons. now rewrite IH.
Qed.

Lemma obj_set_absent (k v : string) (o : Obj) :
  ~ In k (map fst o) -> obj_set k v o = o ++ [(k, v)].
Proof.
  induction o as [| [k0 v0] o IH]; simpl; intros H; [reflexivity |].
  destruct (String.eqb_spec k0 k) as [-> | _]; [elim H; now left |].
  f_equal. apply IH. intros Hin. apply H. now right.
Qed.

(** Assigning properties the target has none of appends them. *)
Lemma assign_fresh (source : Obj) :
  NoDup (map fst source) ->
  forall target,
    (forall k, In k (map fst source) -> ~ In k (map fst target)) ->
    assign target source = target ++ source.
Proof.
  unfold assign.
  induction source as [| [k v] source IH]; simpl; intros Hnd target Hfresh.
  - now rewrite app_nil_r.
  - inversion Hnd as [| ? ? Hnotin Hnd']; subst.
    rewrite obj_set_absent by (apply Hfresh; now left).
    rewrite IH; [now rewrite <- app_assoc | assumption |].
    intros k' Hk' Hin. rewrite map_app, in_app_iff in Hin.
    destruct Hin as [Hin | [<- | []]].
    + exact (Hfresh k' (or_intror Hk') Hin).
    + exact (Hnotin Hk').
Qed.

(** Assigning to a target whose first property is [k]: that property
    keeps its place and takes the value the source has for it; the other
    properties of the source follow. *)
Lemma assign_over (k : string) (source : Obj) :
  NoDup (map fst source) ->
  forall (w : string) (rest : Obj),
    ~ In k (map fst rest) ->
    (forall k', In k' (map fst source) -> ~ In k' (map fst rest)) ->
    assign ((k, w) :: rest) source =
    (k, match obj_get k source with Some v => v | None => w end)
    :: rest ++ without k source.
Proof.
  unfold assign, without.
  induction source as [| [k0 v0] source IH]; simpl; intros Hnd w rest Hk Hfresh.
  - now rewrite app_nil_r.
  - inversion Hnd as [| ? ? Hnotin Hnd']; subst.
    rewrite (String.eqb_sym k k0).
    destruct (String.eqb_spec k0 k) as [-> | Hne]; simpl.
    + rewrite IH; [| assumption | assumption |].
      * now rewrite (obj_get_absent _ _ Hnotin).
      * intros k' Hk'. apply Hfresh. now right.
    + rewrite obj_set_absent by (apply Hfresh; now left).
      rewrite IH; [now rewrite <- app_assoc | assumption | |].
      * rewrite map_app, in_app_iff. intros [Hin | [E | []]]; [now apply Hk |].
        simpl in E. now apply Hne.
      * intros k' Hk'. rewrite map_app, in_app_iff.
        intros [Hin | [<- | []]].
        -- exact (Hfresh k' (or_intror Hk') Hin).
        -- exact (Hnotin Hk').
Qed.

(** The record given to [new Headers], line 187. *)
Lemma spread_bearer (tokens : option OAuthTokens) (caller : Obj) :
  NoDup (map fst caller) ->
  spread (bearer tokens) caller =
  match tokens with
  | Some t =>
      ("Authorization",
       match obj_get "Authorization" caller with
       | Some v => v
       | None => ("Bearer " ++ access_token t)%string
       end) :: without "Authorization" caller
  | None => caller
  end.
Proof.
  intros Hnd. unfold spread. destruct tokens as [t |].
  - change (assign [] (bearer (Some t)))
      with [("Authorization", ("Bearer " ++ access_token t)%string)].
    rewrite (assign_over "Authorization" caller Hnd _ []); [reflexivity | |];
      simpl; tauto.
  - change (assign [] (bearer None)) with (@nil (string * string)).
    rewrite assign_fresh; [reflexivity | assumption |]. simpl. tauto.
Qed.

(** C8, as the code has it.  Every call of [send] on a connected
    transport (the caller's, and the one [send] makes itself after a 401)
    posts with the headers built from the provider's tokens: without a
    provider it posts at once, with the headers of a provider that has no
    tokens; with one it first asks for the tokens.  What the request then
    carries, [caller] being the properties the spread of line 187 copies
    from [requestInit.headers]:
    - under [content-type], in any letter case, [application/json] alone,
      whatever the caller gave;
    - under [authorization], the caller's value alone when its property
      is spelled [Authorization] and it has no other spelling of that
      name: there the caller wins over the bearer; [Bearer <access_token>]
      alone, or nothing without tokens, when the caller has no property
      of that name; the bearer and the caller's value, joined by a comma,
      when the caller spells the name otherwise: the two properties do
      not collide in the record, and both are sent;
    - under any other name, the caller's values of that name. *)
Theorem send_request_headers (s : State) (message : JSONRPCMessage)
    (returned_to : option nat) (endpoint : URL) :
  _endpoint (this s) = Some endpoint ->
  NoDup (map fst (requestInit_headers (this s))) ->
  let r := next_request s in
  let caller := requestInit_headers (this s) in
  let POST := fun tokens => send_init (this s) message (bearer tokens) in
  let s1 := send message returned_to s in
  match _authProvider (this s) with
  | None => trace s1 = trace s ++ [requested r (Fetch (Some endpoint) (POST None))]
  | Some provider =>
      trace s1 = trace s ++ [requested r (Tokens provider)] /\
      forall tokens : option OAuthTokens,
        trace (step s1 (Settled r (tokens_are tokens))) =
        trace s1 ++ [requested (1 + r) (Fetch (Some endpoint) (POST tokens))]
  end /\
  forall tokens : option OAuthTokens,
    let headers := init_headers (POST tokens) in
    (forall name : string,
      lower name = "content-type" ->
      Headers_get headers name = Some "application/json") /\
    (forall name : string,
      lower name = "authorization" ->
      Headers_get headers name =
      match tokens with
      | Some t =>
          joined
            (match obj_get "Authorization" caller with
             | Some v => v
             | None => ("Bearer " ++ access_token t)%string
             end :: values_named name (without "Authorization" caller))
      | None => joined (values_named name caller)
      end) /\
    (forall v : string,
      obj_get "Authorization" caller = Some v ->
      (forall k, In k (map fst caller) ->
                 lower k = "authorization" -> k = "Authorization") ->
      Headers_get headers "Authorization" = Some v) /\
    ((forall k, In k (map fst caller) -> lower k <> "authorization") ->
      Headers_get headers "Authorization" =
      match tokens with
      | Some t => Some ("Bearer " ++ access_token t)%string
      | None => None
      end) /\
    (forall (t : OAuthTokens) (v : string),
      tokens = Some t ->
      obj_get "Authorization" caller = None ->
      values_named "Authorization" caller = [v] ->
      Headers_get headers "Authorization" =
      Some (("Bearer " ++ access_token t) ++ ", " ++ v)%string) /\
    (forall name : string,
      lower name <> "content-type" ->
      lower name <> "authorization" ->
      Headers_get headers name = joined (values_named name caller)).
Proof.
  intros He Hnd. cbn zeta. split.
  - destruct (_authProvider (this s)) as [provider |] eqn:Hp.
    + rewrite (send_asks_tokens message returned_to s He Hp).
      split; [reflexivity |]. intros tokens.
      rewrite step_answer by reflexivity.
      cbn -[send_init bearer]. now rewrite He.
    + now rewrite (send_posts message returned_to s He Hp).
  - intros tokens. unfold send_init. cbn [init_headers].
    set (caller := requestInit_headers (this s)) in *.
    assert (Hother : forall name : string,
               lower name <> "content-type" ->
               Headers_get
                 (Headers_set (Headers_new (spread (bearer tokens) caller))
                    "content-type" "application/json") name =
               joined (values_named name (spread (bearer tokens) caller))).
    { intros name Hname.
      rewrite Headers_get_other by exact Hname. apply Headers_get_new. }
    assert (Hgeneral : forall name : string,
               lower name = "authorization" ->
               Headers_get
                 (Headers_set (Headers_new (spread (bearer tokens) caller))
                    "content-type" "application/json") name =
               match tokens with
               | Some t =>
                   joined
                     (match obj_get "Authorization" caller with
                      | Some v => v
                      | None => ("Bearer " ++ access_token t)%string
                      end :: values_named name (without "Authorization" caller))
               | None => joined (values_named name caller)
               end).
    { intros name Hname.
      rewrite Hother by (rewrite Hname; discriminate).
      rewrite (spread_bearer tokens caller Hnd).
      destruct tokens as [t |]; [| reflexivity].
      rewrite values_named_cons, Hname. reflexivity. }
    split; [| split; [exact Hgeneral | split; [| split; [| split]]]].
    + intros name Hname.
      rewrite (Headers_get_case _ name "content-type") by (now rewrite Hname).
      apply Headers_get_set.
    + intros v Hget Honly. rewrite Hgeneral by reflexivity.
      destruct tokens as [t |].
      * rewrite Hget, values_named_none; [reflexivity |].
        intros k Hk E. apply without_keys in Hk. destruct Hk as (Hk & Hne).
        apply Hne, Honly; [exact Hk | exact E].
      * now rewrite (@values_named_only "Authorization" v caller Hnd Hget Honly).
    + intros Hnone. rewrite Hgeneral by reflexivity.
      assert (Habsent : obj_get "Authorization" caller = None).
      { apply obj_get_absent. intros Hin. now apply (Hnone _ Hin). }
      rewrite (@values_named_none "Authorization" caller Hnone).
      destruct tokens as [t |]; [| reflexivity].
      rewrite Habsent, (@without_absent _ _ Habsent).
      now rewrite (@values_named_none "Authorization" caller Hnone).
    + intros t v -> Habsent Hone. rewrite Hgeneral by reflexivity.
      now rewrite Habsent, (@without_absent _ _ Habsent), Hone.
    + intros name Hct Hauth. rewrite Hother by exact Hct.
      rewrite (spread_bearer tokens caller Hnd).
      destruct tokens as [t |]; [| reflexivity].
      rewrite values_named_cons.
      destruct (String.eqb_spec (lower "Authorization") (lower name)) as [E | _];
        [elim Hauth; now rewrite <- E |].
      f_equal. apply values_named_without. intros E. apply Hauth. now rewrite <- E.
Qed.

(** C10.  A provider without tokens is not a failure.  [send] still posts,
    with the headers it would send without a provider: the caller's alone,
    so no [Authorization] header unless the caller gave one; nothing is
    reported and the promise of the call stays pending on the response.
    The [fetch] of the default [EventSource] init is still made, with an
    empty [headers] record. *)
Theorem no_tokens_no_authorization (s : State) (provider : OAuthClientProvider) :
  _authProvider (this s) = Some provider ->
  let r := next_request s in
  (forall (message : JSONRPCMessage) (endpoint : URL),
    _endpoint (this s) = Some endpoint ->
    let POST := send_init (this s) message [] in
    let s' := run s [Call_send message; Settled r (tokens_are None)] in
    trace s' =
      trace s ++
      [requested r (Tokens provider);
       requested (1 + r) (Fetch (Some endpoint) POST)] /\
    outcome (promises s') (length (promises s)) = Some Pending /\
    init_headers POST =
      Headers_set (Headers_new (spread [] (requestInit_headers (this s))))
        "content-type" "application/json" /\
    ((forall k, In k (map fst (requestInit_headers (this s))) ->
                lower k <> "authorization") ->
     Headers_get (init_headers POST) "Authorization" = None)) /\
  (forall (url : string) (init : RequestInit),
    _eventSourceInit (this s) = None ->
    let s' := run s [Call_fetch url init; Settled r (tokens_are None)] in
    trace s' =
      trace s ++ [requested r (Tokens provider); EventSource_fetch url init []] /\
    promises s' = promises s).
Proof.
  intros Hp. cbn zeta. split.
  - intros message endpoint He. unfold run. cbn [fold_left].
    change (step s (Call_send message)) with (send message None s).
    rewrite (send_asks_tokens message None s He Hp).
    rewrite step_answer by reflexivity.
    cbn -[send_init]. rewrite He.
    split; [now rewrite <- app_assoc |].
    split; [apply (outcome_newest (mkPromise Pending None)) |].
    split; [reflexivity |].
    intros Hcaller. unfold send_init. cbn [init_headers].
    rewrite Headers_get_other by (cbn; discriminate).
    now apply Headers_get_absent.
  - intros url init Hinit. unfold run. cbn [fold_left].
    assert (E : step s (Call_fetch url init) =
                await (Tokens provider) (in_commonHeaders (for_EventSource url init)) s).
    { unfold step, EventSource_init_fetch, _commonHeaders. now rewrite Hinit, Hp. }
    rewrite E, step_answer by reflexivity. cbn.
    split; [now rewrite <- app_assoc | reflexivity].
Qed.

(** ** Further properties of the code *)

(** *** Resuming a suspended segment *)

Lemma step_settled (s : State) (r : nat) (k : Continuation) (answer : Answer) :
  waiting_for r (awaiting s) = Some k ->
  step s (Settled r answer) =
  match resume k answer (resumed r s) with
  | Some s' => s'
  | None => s
  end.
Proof. intros H. unfold step. now rewrite H. Qed.

(** *** [send]: a response that is not a success *)

(** A POST answered with a status outside 200-299 that does not start the
    authentication exchange (any status but 401, or 401 without provider):
    [send] reads the body, then rejects with the POST error carrying the
    status and the body (no body when reading it fails), after passing the
    same error to [onerror] once.  It requests nothing more, and touches
    neither the transport nor its [EventSource]s. *)
Theorem send_http_error (s : State) (r p q : nat) (message : JSONRPCMessage)
    (response : Response) :
  waiting_for r (awaiting s) = Some (in_send_fetch message p) ->
  awaits (promises s) p q ->
  ok response = false ->
  status response <> 401 \/ _authProvider (this s) = None ->
  onerror (this s) = true ->
  let t := next_request s in
  let s1 := step s (Settled r (response_is response)) in
  let failed := fun (answer : Answer) (body : option string) =>
    let s2 := step s1 (Settled t answer) in
    let error := PostError (status response) body in
    trace s2 = trace s1 ++ [call_onerror error] /\
    outcome (promises s2) q = Some (Rejected error) /\
    next_request s2 = S t /\
    waiting_for t (awaiting s2) = None /\
    this s2 = this s /\
    sources s2 = sources s in
  trace s1 = trace s ++ [requested t (Text response)] /\
  outcome (promises s1) q = Some Pending /\
  (forall body : string, failed (text_is body) (Some body)) /\
  (forall e : Error, failed (throws e) None).
Proof.
  intros Hr Hq Hok Hnot He. cbn zeta.
  assert (E : step s (Settled r (response_is response)) =
              await (Text response) (in_send_text message p response) (resumed r s)).
  { erewrite step_settled by exact Hr. cbn.
    rewrite Hok. cbn.
    destruct Hnot as [Hstatus | Hnone].
    - apply Nat.eqb_neq in Hstatus. now rewrite Hstatus.
    - rewrite Hnone. now destruct (status response =? 401). }
  rewrite E.
  split; [reflexivity |]. split; [exact (awaits_pending Hq) |].
  split; [intros body | intros e];
    rewrite step_answer by reflexivity;
    cbn -[settle]; unfold onerror_; cbn -[settle];
    rewrite He; cbn -[settle];
    (split; [reflexivity |]); (split; [now apply settle_awaits |]);
    (split; [reflexivity |]);
    (split; [apply waiting_for_resumed | split; reflexivity]).
Qed.

(** *** [send]: a collaborator throws *)

(** Whichever [await] of [send] throws (the provider's [tokens], [fetch] or
    [auth]), the thrown value is passed to [onerror] once and the call is
    rejected with the same value; nothing is requested again. *)
Theorem send_failure_is_reported (s : State) (r p q : nat)
    (message : JSONRPCMessage) (k : Continuation) (error : Error) :
  waiting_for r (awaiting s) = Some k ->
  k = in_commonHeaders (for_send message p) \/
  k = in_send_fetch message p \/ k = in_send_auth message p ->
  awaits (promises s) p q ->
  onerror (this s) = true ->
  let s' := step s (Settled r (throws error)) in
  trace s' = trace s ++ [call_onerror error] /\
  outcome (promises s') q = Some (Rejected error) /\
  next_request s' = next_request s /\
  waiting_for r (awaiting s') = None /\
  this s' = this s.
Proof.
  intros Hr Hk Hq He. cbn zeta.
  erewrite step_settled by exact Hr.
  destruct Hk as [-> | [-> | ->]];
    cbn -[settle]; unfold onerror_; cbn -[settle]; rewrite He; cbn -[settle];
    (split; [reflexivity |]); (split; [now apply settle_awaits |]);
    (split; [reflexivity |]);
    (split; [apply waiting_for_resumed | reflexivity]).
Qed.

(** *** The ["endpoint"] event *)

Lemma endpoint_accepted (s : State) (es g : nat) (data : string) (endpoint : URL) :
  object_at (sources s) es = Some g ->
  URL_new data (_url (this s)) = inr endpoint ->
  origin endpoint = origin (_url (this s)) ->
  step s (Event_endpoint es data) =
  resolve g (update (set_endpoint endpoint) s).
Proof.
  intros Hes Hurl Horigin. unfold step, listening. rewrite Hes.
  unfold EventSource_endpoint. rewrite Hurl. cbn -[settle].
  now rewrite Horigin, String.eqb_refl.
Qed.

(** An ["endpoint"] event whose address has the origin of the target
    address is stored and fulfils the promise that waits for this
    [EventSource], silently.  A [send] that follows posts the encoded
    message to that address with the signal of the current controller
    (after asking the provider for its tokens, when there is one), and a
    success status fulfils it with exactly one POST and no [onerror]. *)
Theorem send_posts_to_announced_endpoint (s : State) (es g p : nat)
    (data : string) (endpoint : URL) (message : JSONRPCMessage)
    (tokens : option OAuthTokens) (response : Response) :
  object_at (sources s) es = Some g ->
  awaits (promises s) g p ->
  URL_new data (_url (this s)) = inr endpoint ->
  origin endpoint = origin (_url (this s)) ->
  ok response = true ->
  let r := next_request s in
  let s1 := step s (Event_endpoint es data) in
  let answers :=
    match _authProvider (this s) with
    | Some _ => [Settled r (tokens_are tokens); Settled (1 + r) (response_is response)]
    | None => [Settled r (response_is response)]
    end in
  let common :=
    match _authProvider (this s) with
    | Some _ => bearer tokens
    | None => []
    end in
  let s2 := run s1 (Call_send message :: answers) in
  outcome (promises s1) p = Some Fulfilled /\
  _endpoint (this s1) = Some endpoint /\
  trace s1 = trace s /\
  (exists r', In (requested r'
                    (Fetch (Some endpoint)
                       (send_init (this s1) message common))) (trace s2)) /\
  init_body (send_init (this s1) message common) = JSON_stringify message /\
  init_signal (send_init (this s1) message common) = _abortController (this s) /\
  times is_POST (trace s2) = times is_POST (trace s) + 1 /\
  times is_onerror (trace s2) = times is_onerror (trace s) /\
  outcome (promises s2) (length (promises s)) = Some Fulfilled.
Proof.
  intros Hes Hp Hurl Horigin Hok. cbn zeta.
  rewrite (endpoint_accepted s es data Hes Hurl Horigin).
  split; [now apply settle_awaits |]. split; [reflexivity |].
  split; [reflexivity |].
  set (s1 := resolve g (update (set_endpoint endpoint) s)).
  assert (He1 : _endpoint (this s1) = Some endpoint) by reflexivity.
  assert (Hlen : length (promises s1) = length (promises s))
    by apply length_settle.
  assert (Hfresh : forall a,
             outcome (settle (mkPromise Pending a :: promises s1)
                        (length (promises s1)) Fulfilled)
               (length (promises s)) = Some Fulfilled).
  { intros a. rewrite <- Hlen. apply settle_awaits, awaits_itself.
    apply (outcome_newest (mkPromise Pending a)). }
  unfold run.
  destruct (_authProvider (this s)) as [provider |] eqn:Hprov.
  - assert (Hp1 : _authProvider (this s1) = Some provider) by exact Hprov.
    cbn [fold_left].
    change (step s1 (Call_send message)) with (send message None s1).
    rewrite (send_asks_tokens message None s1 He1 Hp1).
    rewrite step_answer by reflexivity.
    cbn -[step send_init bearer settle send_post]. unfold send_post.
    rewrite step_answer by reflexivity.
    cbn -[step send_init bearer settle times]. rewrite Hok.
    cbn -[step send_init bearer settle times].
    split.
    { exists (S (next_request s)). rewrite !in_app_iff. right. now left. }
    split; [reflexivity |]. split; [reflexivity |].
    split; [rewrite !times_app; cbn; lia |].
    split; [rewrite !times_app; cbn; lia | apply Hfresh].
  - assert (Hp1 : _authProvider (this s1) = None) by exact Hprov.
    cbn [fold_left].
    change (step s1 (Call_send message)) with (send message None s1).
    rewrite (send_posts message None s1 He1 Hp1).
    rewrite step_answer by reflexivity.
    cbn -[step send_init bearer settle times]. rewrite Hok.
    cbn -[step send_init bearer settle times].
    split.
    { exists (next_request s). rewrite !in_app_iff. right. now left. }
    split; [reflexivity |]. split; [reflexivity |].
    split; [rewrite !times_app; cbn; lia |].
    split; [rewrite !times_app; cbn; lia | apply Hfresh].
Qed.

(** A value thrown by [new URL] takes the path of the origin mismatch: the
    waiting promise is rejected with it, [onerror] receives it once, the
    current controller is aborted, the current [EventSource] closed and
    [onclose] invoked once.  The stored endpoint is left as it was. *)
Theorem unparsable_endpoint_closes (s : State) (es g p : nat) (data : string)
    (error : Error) :
  object_at (sources s) es = Some g ->
  awaits (promises s) g p ->
  URL_new data (_url (this s)) = inl error ->
  onerror (this s) = true ->
  onclose (this s) = true ->
  let s' := step s (Event_endpoint es data) in
  outcome (promises s') p = Some (Rejected error) /\
  trace s' =
    trace s ++ [call_onerror error] ++
    aborted (this s) ++ closed (this s) ++ [call_onclose] /\
  this s' = this s.
Proof.
  intros Hes Hp Hurl He Hc. cbn zeta.
  unfold step, listening. rewrite Hes. unfold EventSource_endpoint.
  rewrite Hurl. rewrite close_does. unfold onerror_. cbn -[settle].
  rewrite He. cbn -[settle]. unfold close_observed. rewrite Hc.
  pose proof (awaits_lt Hp) as Hlt. pose proof (awaits_le Hp) as Hle.
  split; [| split; [now rewrite <- app_assoc | reflexivity]].
  rewrite outcome_older by (rewrite length_settle; lia).
  now apply settle_awaits.
Qed.

(** The listener assigns [_endpoint] before it compares origins, and the
    failure path does not undo it: after an ["endpoint"] event of another
    origin the transport holds that address.  A later [send] is therefore
    not rejected as not connected; without a provider it posts the message
    to the foreign address at once, with the signal of the controller that
    the failure path aborted. *)
Theorem mismatched_endpoint_is_kept (s : State) (es g : nat) (data : string)
    (endpoint : URL) (message : JSONRPCMessage) :
  object_at (sources s) es = Some g ->
  URL_new data (_url (this s)) = inr endpoint ->
  origin endpoint <> origin (_url (this s)) ->
  let s1 := step s (Event_endpoint es data) in
  let s2 := step s1 (Call_send message) in
  _endpoint (this s1) = Some endpoint /\
  outcome (promises s2) (length (promises s1)) = Some Pending /\
  (_authProvider (this s) = None ->
   trace s2 =
     trace s1 ++
     [requested (next_request s)
        (Fetch (Some endpoint) (send_init (this s1) message []))] /\
   init_signal (send_init (this s1) message []) = _abortController (this s) /\
   forall ac, _abortController (this s) = Some ac ->
              In (AbortController_abort ac) (trace s1)).
Proof.
  intros Hes Hurl Horigin. cbn zeta.
  apply String.eqb_neq in Horigin.
  assert (E : step s (Event_endpoint es data) =
              close (onerror_ (EndpointOriginMismatch (origin endpoint))
                       (reject g (EndpointOriginMismatch (origin endpoint))
                          (update (set_endpoint endpoint) s)))).
  { unfold step, listening. rewrite Hes. unfold EventSource_endpoint.
    rewrite Hurl. cbn -[close onerror_ reject]. now rewrite Horigin. }
  rewrite E. clear E.
  set (error := EndpointOriginMismatch (origin endpoint)).
  set (s1 := close (onerror_ error (reject g error (update (set_endpoint endpoint) s)))).
  assert (Hthis : this s1 = set_endpoint endpoint (this s)).
  { subst s1. rewrite this_close. unfold onerror_. cbn.
    now destruct (onerror (this s)). }
  assert (He1 : _endpoint (this s1) = Some endpoint) by now rewrite Hthis.
  split; [exact He1 |]. split.
  - change (step s1 (Call_send message)) with (send message None s1).
    destruct (_authProvider (this s1)) as [provider |] eqn:Hp1.
    + rewrite (send_asks_tokens message None s1 He1 Hp1).
      apply (outcome_newest (mkPromise Pending None)).
    + rewrite (send_posts message None s1 He1 Hp1).
      apply (outcome_newest (mkPromise Pending None)).
  - intros Hnone.
    assert (Hp1 : _authProvider (this s1) = None) by now rewrite Hthis.
    change (step s1 (Call_send message)) with (send message None s1).
    rewrite (send_posts message None s1 He1 Hp1).
    assert (Hnext : next_request s1 = next_request s).
    { subst s1. rewrite close_does. unfold onerror_. cbn.
      now destruct (onerror (this s)). }
    split; [rewrite <- Hnext; reflexivity |].
    split; [now rewrite Hthis |].
    intros ac Hac. subst s1. rewrite close_does. cbn [trace].
    rewrite !in_app_iff. right. left.
    unfold aborted, onerror_. cbn.
    destruct (onerror (this s)); cbn; rewrite Hac; now left.
Qed.

(** *** An error of the [EventSource] that is not answered by [auth] *)

Lemma settle_settled (o o' : Settlement) (ps : list Promise) :
  forall p, outcome ps p = Some o -> o <> Pending -> settle ps p o' = ps.
Proof.
  induction ps as [| x older IH]; intros p Ho Hne; [reflexivity |].
  simpl. unfold outcome in Ho. simpl in Ho.
  destruct (p =? length older).
  - simpl in Ho. injection Ho as Ho.
    destruct (settlement x); [now elim Hne | reflexivity | reflexivity].
  - f_equal. now apply IH.
Qed.

(** An error event whose code is not 401, or any error event when no
    provider is configured, becomes an [SseError] with the event's code and
    message: it rejects the promise that waits for this [EventSource] and
    is passed to [onerror] once.  [auth] is not called, and the transport
    is not closed: nothing is aborted, the [EventSource] stays the one the
    transport holds, [onclose] is not invoked.  When the promise of the
    [EventSource] was settled before (the start had succeeded), the error
    is only reported. *)
Theorem channel_error_is_reported (s : State) (es g : nat)
    (code : option nat) (message : option string) :
  object_at (sources s) es = Some g ->
  is_401 code = false \/ _authProvider (this s) = None ->
  onerror (this s) = true ->
  let error := SseError code message in
  let s' := step s (Event_error es code message) in
  trace s' = trace s ++ [call_onerror error] /\
  this s' = this s /\
  sources s' = sources s /\
  next_request s' = next_request s /\
  awaiting s' = awaiting s /\
  (forall p, awaits (promises s) g p ->
             outcome (promises s') p = Some (Rejected error)) /\
  (forall o, outcome (promises s) g = Some o -> o <> Pending ->
             promises s' = promises s).
Proof.
  intros Hes Hnot He. cbn zeta.
  assert (E : step s (Event_error es code message) =
              onerror_ (SseError code message)
                (reject g (SseError code message) s)).
  { unfold step, listening. rewrite Hes. unfold EventSource_onerror.
    destruct Hnot as [-> | ->]; [reflexivity |].
    now destruct (is_401 code). }
  rewrite E. unfold onerror_. cbn -[settle]. rewrite He. cbn -[settle].
  repeat split.
  - intros p Hp. now apply settle_awaits.
  - intros o Ho Hne. now apply (settle_settled _ _ _ Ho).
Qed.

(** *** What holds in every run *)

Ltac grown :=
  eexists; split;
  [ first [ reflexivity
          | symmetry; apply app_nil_r
          | rewrite <- ?app_assoc; reflexivity ]
  | ].

Lemma step_configuration (s : State) (i : Input) :
  _url (this (step s i)) = _url (this s) /\
  _authProvider (this (step s i)) = _authProvider (this s) /\
  _requestInit (this (step s i)) = _requestInit (this s) /\
  _eventSourceInit (this (step s i)) = _eventSourceInit (this s).
Proof.
  assert (Hresume : forall k answer s0 s',
             resume k answer s0 = Some s' ->
             _url (this s') = _url (this s0) /\
             _authProvider (this s') = _authProvider (this s0) /\
             _requestInit (this s') = _requestInit (this s0) /\
             _eventSourceInit (this s') = _eventSourceInit (this s0)).
  { intros k answer s0 s' H. apply this_resume in H.
    destruct H as [-> | [es ->]]; repeat split. }
  destruct i; unfold step.
  - unfold start. cbn. destruct (_eventSource (this s)); repeat split.
  - rewrite this_close. repeat split.
  - rewrite this_send. repeat split.
  - repeat split.
  - repeat split.
  - repeat split.
  - unfold listening. destruct (object_at (sources s) es); [| repeat split].
    rewrite this_EventSource_onerror. repeat split.
  - unfold listening. destruct (object_at (sources s) es); [| repeat split].
    by_cases; repeat split.
  - unfold listening. destruct (object_at (sources s) es); [| repeat split].
    rewrite this_EventSource_onmessage. repeat split.
  - rewrite this_EventSource_init_fetch. repeat split.
  - destruct (waiting_for r (awaiting s)) as [k |]; [| repeat split].
    destruct (resume k answer (resumed r s)) as [s' |] eqn:E; [| repeat split].
    exact (Hresume _ _ _ _ E).
Qed.

(** The target address, the provider and the two customizations given to
    the constructor are never assigned again: they are the same after every
    run. *)
Theorem configuration_is_fixed (inputs : list Input) (s : State) :
  let s' := run s inputs in
  _url (this s') = _url (this s) /\
  _authProvider (this s') = _authProvider (this s) /\
  _requestInit (this s') = _requestInit (this s) /\
  _eventSourceInit (this s') = _eventSourceInit (this s).
Proof.
  cbn zeta. revert s.
  induction inputs as [| i inputs IH]; intros s; [repeat split |].
  rewrite run_cons.
  destruct (IH (step s i)) as (U & A & R & E).
  destruct (step_configuration s i) as (U' & A' & R' & E').
  repeat split; congruence.
Qed.

Lemma step_keeps_open (s : State) (i : Input) :
  may_close (_url (this s)) i = false ->
  exists delta, trace (step s i) = trace s ++ delta /\ times closes delta = 0.
Proof.
  destruct i; unfold may_close, step; try discriminate.
  all: by_cases; intros; try discriminate; grown; reflexivity.
Qed.

(** Nothing but [close()] and a failed ["endpoint"] event tears the
    connection down: in a run without them (calls of [start] and [send],
    collaborators' answers of every kind, messages, errors of the
    [EventSource], accepted endpoints) the transport aborts no controller,
    closes no [EventSource] and never invokes [onclose]. *)
Theorem only_close_closes (inputs : list Input) (s : State) :
  forallb (fun i => negb (may_close (_url (this s)) i)) inputs = true ->
  exists delta,
    trace (run s inputs) = trace s ++ delta /\ times closes delta = 0.
Proof.
  revert s. induction inputs as [| i inputs IH]; intros s H.
  - exists []. split; [now rewrite app_nil_r | reflexivity].
  - simpl in H. apply andb_true_iff in H. destruct H as [Hi H].
    apply negb_true_iff in Hi. rewrite run_cons.
    destruct (step_keeps_open s i Hi) as (d1 & T1 & C1).
    destruct (step_configuration s i) as (U & _).
    rewrite <- U in H.
    destruct (IH _ H) as (d2 & T2 & C2).
    exists (d1 ++ d2). split.
    + now rewrite T2, T1, app_assoc.
    + rewrite times_app. lia.
Qed.

Lemma step_holds_newest (s : State) (i : Input) :
  holds_newest s ->
  holds_newest (step s i) /\
  length (sources s) <= length (sources (step s i)).
Proof.
  unfold holds_newest. intros [He Ha]. revert He Ha.
  destruct i; unfold step.
  all: by_cases; intros He Ha; cbn; (split; [split |]);
    try assumption; try reflexivity; try congruence; try lia.
  all: repeat match goal with
         | H : _ :: _ = _ :: _ |- _ => injection H as ? ?
         end; subst; lia.
Qed.

Lemma step_closes_held (s : State) (i : Input) :
  exists delta,
    trace (step s i) = trace s ++ delta /\
    forall es, In (EventSource_close es) delta -> _eventSource (this s) = Some es.
Proof.
  destruct i; unfold step.
  all: by_cases; grown; intros es' Hin; simpl in Hin;
    repeat (destruct Hin as [Hin | Hin]; try discriminate Hin);
    try contradiction; congruence.
Qed.

Lemma run_holds_newest (inputs : list Input) :
  forall s, holds_newest s ->
            holds_newest (run s inputs) /\
            length (sources s) <= length (sources (run s inputs)).
Proof.
  induction inputs as [| i inputs IH]; intros s H;
    [split; [exact H | apply Nat.le_refl] |].
  rewrite run_cons.
  destruct (step_holds_newest i H) as [H1 L1].
  destruct (IH _ H1) as [H2 L2]. split; [exact H2 | lia].
Qed.

(** The transport only ever closes the [EventSource] it holds, and it
    always holds the one created last, with the controller created with
    it.  So an [EventSource] that a reconnect has superseded is never
    closed by the transport, whatever happens afterwards: no [close()] and
    no failure reaches it. *)
Theorem superseded_EventSource_is_never_closed (url : URL)
    (opts : option SSEClientTransportOptions) (before after : list Input)
    (es : nat) :
  let s0 := run (initially (constructor url opts)) before in
  let s1 := run s0 after in
  S es < length (sources s0) ->
  holds_newest s1 /\
  exists delta,
    trace s1 = trace s0 ++ delta /\ ~ In (EventSource_close es) delta.
Proof.
  cbn zeta. intros Hes.
  assert (H0 : holds_newest (initially (constructor url opts)))
    by (split; reflexivity).
  destruct (run_holds_newest before H0) as [Hs0 _].
  revert Hes Hs0.
  generalize (run (initially (constructor url opts)) before).
  induction after as [| i after IH]; intros s Hes Hs.
  - split; [exact Hs |]. exists []. split; [now rewrite app_nil_r | intros []].
  - rewrite run_cons.
    destruct (step_holds_newest i Hs) as [Hs' Hlen].
    destruct (IH (step s i)) as (Hfinal & d2 & T2 & N2); [lia | exact Hs' |].
    destruct (step_closes_held s i) as (d1 & T1 & N1).
    split; [exact Hfinal |].
    exists (d1 ++ d2). split; [now rewrite T2, T1, app_assoc |].
    rewrite in_app_iff. intros [Hin | Hin]; [| now apply N2].
    apply N1 in Hin. destruct Hs as [Hheld _]. rewrite Hheld in Hin.
    destruct (sources s) as [| g older]; [discriminate |].
    injection Hin as Hin. simpl in Hes. lia.
Qed.

(** *** The [fetch] given to the [EventSource] *)

(** The [fetch] of the default [EventSource] init: without a provider it
    fetches at once with an empty [headers] record; with a provider it
    first asks for the tokens and fetches with the one header
    [Authorization: Bearer <access_token>].  When [tokens] throws, the
    fetch fails with the thrown value and the transport reports nothing:
    [onerror] is not invoked and no promise of the transport is touched. *)
Theorem stream_fetch_headers (s : State) (url : string) (init : RequestInit) :
  _eventSourceInit (this s) = None ->
  let r := next_request s in
  let s1 := step s (Call_fetch url init) in
  match _authProvider (this s) with
  | None =>
      trace s1 = trace s ++ [EventSource_fetch url init []] /\
      promises s1 = promises s
  | Some provider =>
      trace s1 = trace s ++ [requested r (Tokens provider)] /\
      (forall t : OAuthTokens,
        trace (step s1 (Settled r (tokens_are (Some t)))) =
        trace s1 ++
        [EventSource_fetch url init
           [("Authorization", ("Bearer " ++ access_token t)%string)]]) /\
      (forall e : Error,
        let s2 := step s1 (Settled r (throws e)) in
        trace s2 = trace s1 ++ [EventSource_fetch_failed e] /\
        promises s2 = promises s /\
        times is_onerror (trace s2) = times is_onerror (trace s))
  end.
Proof.
  intros Hinit. cbn zeta.
  destruct (_authProvider (this s)) as [provider |] eqn:Hprov.
  - assert (E : step s (Call_fetch url init) =
                await (Tokens provider)
                  (in_commonHeaders (for_EventSource url init)) s).
    { unfold step, EventSource_init_fetch, _commonHeaders.
      now rewrite Hinit, Hprov. }
    rewrite E.
    split; [reflexivity |]. split.
    + intros t. now rewrite step_answer by reflexivity.
    + intros e. rewrite step_answer by reflexivity. cbn -[times].
      split; [reflexivity |]. split; [reflexivity |].
      rewrite !times_app. cbn. lia.
  - unfold step, EventSource_init_fetch, _commonHeaders.
    rewrite Hinit, Hprov. split; reflexivity.
Qed.

(** *** After [close()] *)

(** [close()] resets nothing: the endpoint and the [EventSource] stay
    assigned.  A [send] after [close()] is therefore not rejected as not
    connected (without a provider it posts at once, with the signal of the
    controller that [close()] aborted), and a [start()] after [close()] is
    rejected as already started. *)
Theorem close_does_not_reset (s : State) (endpoint : URL) (es : nat)
    (message : JSONRPCMessage) :
  _endpoint (this s) = Some endpoint ->
  _eventSource (this s) = Some es ->
  let s1 := step s Call_close in
  let sent := step s1 (Call_send message) in
  let restarted := step s1 Call_start in
  this s1 = this s /\
  outcome (promises sent) (length (promises s1)) = Some Pending /\
  (_authProvider (this s) = None ->
   trace sent =
     trace s1 ++
     [requested (next_request s)
        (Fetch (Some endpoint) (send_init (this s) message []))] /\
   init_signal (send_init (this s) message []) = _abortController (this s)) /\
  outcome (promises restarted) (length (promises s1)) =
    Some (Rejected AlreadyStarted) /\
  trace restarted = trace s1.
Proof.
  intros He Hes. cbn zeta.
  change (step s Call_close) with (close s). rewrite close_does.
  set (s1 := mkState _ _ _ _ _ _).
  assert (He1 : _endpoint (this s1) = Some endpoint) by exact He.
  split; [reflexivity |]. split; [| split; [| split]].
  - change (step s1 (Call_send message)) with (send message None s1).
    destruct (_authProvider (this s1)) as [provider |] eqn:Hp1.
    + rewrite (send_asks_tokens message None s1 He1 Hp1).
      apply (outcome_newest (mkPromise Pending None)).
    + rewrite (send_posts message None s1 He1 Hp1).
      apply (outcome_newest (mkPromise Pending None)).
  - intros Hnone.
    change (step s1 (Call_send message)) with (send message None s1).
    rewrite (send_posts message None s1 He1 Hnone). split; reflexivity.
  - unfold step, start. cbn -[settle]. rewrite Hes. cbn -[settle].
    apply settle_awaits, awaits_itself.
    apply (outcome_newest (mkPromise Pending None)).
  - unfold step, start. cbn -[settle]. now rewrite Hes.
Qed.

(** *** [send] answered 401 again and again *)

(** One round: the tokens, a 401, ["AUTHORIZED"].  The call is then where
    it was, one POST and one promise later. *)
Lemma one_refusal (s : State) (r p : nat) (message : JSONRPCMessage)
    (endpoint : URL) (provider : OAuthClientProvider)
    (tokens : option OAuthTokens) :
  waiting_for r (awaiting s) = Some (in_commonHeaders (for_send message p)) ->
  next_request s = S r ->
  _endpoint (this s) = Some endpoint ->
  _authProvider (this s) = Some provider ->
  let s' := run s (refusals tokens 1 r) in
  waiting_for (3 + r) (awaiting s') =
    Some (in_commonHeaders (for_send message (length (promises s)))) /\
  next_request s' = S (3 + r) /\
  this s' = this s /\
  promises s' = mkPromise Pending (Some p) :: promises s /\
  trace s' =
    trace s ++
    [requested (1 + r) (Fetch (Some endpoint) (send_init (this s) message (bearer tokens)));
     requested (2 + r) (Auth provider (_url (this s)));
     requested (3 + r) (Tokens provider)].
Proof.
  intros Hr Hnext He Hp. cbn zeta. unfold refusals, run. cbn [fold_left].
  rewrite (@step_settled s r _ (tokens_are tokens) Hr).
  cbn -[step send_init bearer settle send_post]. unfold send_post.
  rewrite step_answer by (cbn; now rewrite Hnext).
  cbn -[step send_init bearer settle send]. rewrite Hp.
  rewrite step_answer by (cbn; now rewrite Hnext).
  cbn -[step send_init bearer settle send].
  erewrite send_asks_tokens; [| exact He | exact Hp].
  cbn -[send_init bearer]. rewrite Hnext, He, Nat.eqb_refl.
  repeat split. now rewrite <- !app_assoc.
Qed.

Lemma refusals_keep_sending (message : JSONRPCMessage) (endpoint : URL)
    (provider : OAuthClientProvider) (tokens : option OAuthTokens) (n : nat) :
  forall (s : State) (r p q : nat),
    waiting_for r (awaiting s) = Some (in_commonHeaders (for_send message p)) ->
    awaits (promises s) p q ->
    next_request s = S r ->
    _endpoint (this s) = Some endpoint ->
    _authProvider (this s) = Some provider ->
    let s' := run s (refusals tokens n r) in
    times is_POST (trace s') = times is_POST (trace s) + n /\
    times is_onerror (trace s') = times is_onerror (trace s) /\
    outcome (promises s') q = Some Pending /\
    exists p',
      waiting_for (3 * n + r) (awaiting s') =
      Some (in_commonHeaders (for_send message p')).
Proof.
  induction n as [| n IH]; intros s r p q Hr Hq Hn He Hp.
  - simpl. repeat split.
    + lia.
    + exact (awaits_pending Hq).
    + now exists p.
  - cbn zeta.
    change (refusals tokens (S n) r)
      with (refusals tokens 1 r ++ refusals tokens n (3 + r)).
    unfold run. rewrite fold_left_app. fold (run s (refusals tokens 1 r)).
    destruct (@one_refusal s r p message endpoint provider tokens Hr Hn He Hp)
      as (Hr' & Hn' & Hthis & Hps & Htrace).
    set (s1 := run s (refusals tokens 1 r)) in *.
    fold (run s1 (refusals tokens n (3 + r))).
    assert (Hq' : awaits (promises s1) (length (promises s)) q).
    { rewrite Hps. eapply awaits_adopter.
      - apply object_at_newest.
      - exact (awaits_lt Hq).
      - now apply awaits_cons. }
    assert (He' : _endpoint (this s1) = Some endpoint) by now rewrite Hthis.
    assert (Hp' : _authProvider (this s1) = Some provider) by now rewrite Hthis.
    destruct (IH s1 (3 + r) (length (promises s)) q Hr' Hq' Hn' He' Hp')
      as (HP & HE & HO & p' & HW).
    rewrite HP, HE, Htrace, !times_app. cbn -[Nat.mul].
    repeat split; try lia; try exact HO.
    exists p'. rewrite <- HW. f_equal. lia.
Qed.

(** The resend after a 401 has no bound.  As long as every POST is
    answered 401 and [auth] answers ["AUTHORIZED"], [send] posts the
    message again: after [n] such rounds it has posted [n] times, has
    reported nothing to [onerror], its promise is still pending and it is
    asking the provider for its tokens once more. *)
Theorem resend_has_no_bound (n : nat) (s : State) (message : JSONRPCMessage)
    (endpoint : URL) (provider : OAuthClientProvider)
    (tokens : option OAuthTokens) :
  _endpoint (this s) = Some endpoint ->
  _authProvider (this s) = Some provider ->
  let r := next_request s in
  let s' := run s (Call_send message :: refusals tokens n r) in
  times is_POST (trace s') = times is_POST (trace s) + n /\
  times is_onerror (trace s') = times is_onerror (trace s) /\
  outcome (promises s') (length (promises s)) = Some Pending /\
  exists p,
    waiting_for (3 * n + r) (awaiting s') =
    Some (in_commonHeaders (for_send message p)).
Proof.
  intros He Hp. cbn zeta. rewrite run_cons.
  change (step s (Call_send message)) with (send message None s).
  rewrite (send_asks_tokens message None s He Hp).
  set (s0 := await _ _ _).
  assert (Hr0 : waiting_for (next_request s) (awaiting s0) =
                Some (in_commonHeaders (for_send message (length (promises s)))))
    by apply waiting_for_newest.
  assert (Hq0 : awaits (promises s0) (length (promises s)) (length (promises s))).
  { apply awaits_itself. apply (outcome_newest (mkPromise Pending None)). }
  assert (Ht0 : times is_POST (trace s0) = times is_POST (trace s) /\
                times is_onerror (trace s0) = times is_onerror (trace s)).
  { subst s0. cbn -[times]. rewrite !times_app. cbn. lia. }
  destruct Ht0 as [<- <-].
  apply (@refusals_keep_sending message endpoint provider tokens n s0
           (next_request s) (length (promises s)) (length (promises s))
           Hr0 Hq0 eq_refl He Hp).
Qed.

End Properties.

(** ** The properties on the concrete platform *)

Lemma start_awaits_example (opts : option (@SSEClientTransportOptions example_platform)) :
  awaits (promises (connecting (constructor example_url opts))) 1 0.
Proof.
  eapply awaits_adopter.
  - reflexivity.
  - apply Nat.lt_0_1.
  - apply awaits_itself. reflexivity.
Defined.

Lemma resend_after_401_example :
  let s := connected customized_transport in
  let resent :=
    run s
      [@Call_send example_platform "{}";
       Settled 0 (tokens_are (Some (mkTokens "stale")));
       Settled 1 (response_is (mkResponse 401));
       Settled 2 (auth_is "AUTHORIZED");
       Settled 3 (tokens_are (Some (mkTokens "fresh")))] in
  let s' := step resent (Settled 4 (response_is (mkResponse 200))) in
  times is_POST (trace resent) = 2 /\
  outcome (promises s') 2 = Some Fulfilled /\
  times is_POST (trace s') = 2 /\
  times is_onerror (trace s') = 0.
Proof.
  cbv zeta.
  destruct (@resend_after_401 example_platform (connected customized_transport)
              "{}" messages_endpoint "provider"
              (Some (mkTokens "stale")) (Some (mkTokens "fresh"))
              (mkResponse 401) "AUTHORIZED"
              eq_refl eq_refl eq_refl eq_refl)
    as (_ & _ & _ & Hposts & Herrors & _ & Hsuccess & _).
  destruct (Hsuccess (mkResponse 200) eq_refl) as (Hsame & _ & _ & Houtcome).
  vm_compute in Hposts, Herrors, Hsame, Houtcome. vm_compute.
  split; [reflexivity |]. split; [exact Houtcome |].
  split; reflexivity.
Defined.

(** A second 401 answered by ["AUTHORIZED"] again: the message is posted
    three times, so the first 401 was followed by more than one resend;
    the call is still pending. *)
Lemma second_401_is_resent_again :
  let s := connected authenticated_transport in
  let s' :=
    run s
      [@Call_send example_platform "{}";
       Settled 0 (tokens_are None);
       Settled 1 (response_is (mkResponse 401));
       Settled 2 (auth_is "AUTHORIZED");
       Settled 3 (tokens_are None);
       Settled 4 (response_is (mkResponse 401));
       Settled 5 (auth_is "AUTHORIZED");
       Settled 6 (tokens_are None)] in
  times is_POST (trace s') = 3 /\
  times is_POST (trace s') <> 2 /\
  outcome (promises s') 2 = Some Pending.
Proof.
  vm_compute. split; [reflexivity |]. split; [discriminate | reflexivity].
Qed.

Lemma reconnect_after_401_example :
  let s := connecting authenticated_transport in
  let s2 :=
    run s [@Event_error example_platform 0 (Some 401) None;
           Settled 0 (auth_is "AUTHORIZED")] in
  let s3 := run s2 [@Event_endpoint example_platform 1 "/messages"] in
  outcome (promises s2) 0 = Some Pending /\
  _eventSource (this s2) = Some 1 /\
  outcome (promises s3) 0 = Some Fulfilled /\
  _endpoint (this s3) = Some messages_endpoint.
Proof.
  cbv zeta.
  destruct (@reconnect_after_401 example_platform
              (connecting authenticated_transport) 0 1 0 None "provider"
              "AUTHORIZED" eq_refl (start_awaits_example _) eq_refl eq_refl)
    as (_ & _ & _ & _ & Hsource & _ & Hpending & Hendpoint & _).
  destruct (Hendpoint "/messages" messages_endpoint eq_refl eq_refl)
    as (Hfulfilled & Hstored & _).
  split; [exact Hpending |]. split; [exact Hsource |].
  split; [exact Hfulfilled | exact Hstored].
Defined.

Lemma endpoint_origin_mismatch_example :
  let s := connecting authenticated_transport in
  let s' := run s [@Event_endpoint example_platform 0 "https://evil.example/messages"] in
  outcome (promises s') 0 =
    Some (Rejected (EndpointOriginMismatch "https://evil.example")) /\
  trace s' =
    trace s ++
    [call_onerror (EndpointOriginMismatch "https://evil.example");
     AbortController_abort 0; EventSource_close 0; call_onclose].
Proof.
  cbv zeta.
  assert (Horigin : "https://evil.example" <> "https://example.com")
    by discriminate.
  destruct (@endpoint_origin_mismatch example_platform
              (connecting authenticated_transport) 0 1 0
              "https://evil.example/messages"
              (mkURL "https://evil.example/messages" "https://evil.example")
              eq_refl (start_awaits_example _) eq_refl Horigin eq_refl eq_refl)
    as (Hrejected & Htrace & _).
  split; [exact Hrejected | exact Htrace].
Defined.

Lemma close_fires_on_every_call_example :
  let s := connecting plain_transport in
  times is_onclose (trace (run s [@Call_close example_platform; Call_close])) = 2.
Proof.
  cbv zeta.
  destruct (@close_fires_on_every_call example_platform
              (connecting plain_transport) eq_refl)
    as (_ & _ & _ & _ & _ & Htwice).
  exact Htwice.
Defined.

(** [close()] twice: the close callback fires twice, on a started transport
    and on one that was never started, and the second call repeats the
    abort and the close of the first. *)
Lemma close_twice_fires_twice :
  times is_onclose
    (trace (run (connecting plain_transport)
              [@Call_close example_platform; Call_close])) <> 1 /\
  times is_onclose
    (trace (run (initially plain_transport)
              (observed ++ [@Call_close example_platform; Call_close]))) <> 1 /\
  trace (run (connecting plain_transport)
           [@Call_close example_platform; Call_close]) =
  [new_EventSource 0 "https://example.com/sse" None; new_AbortController 0;
   AbortController_abort 0; EventSource_close 0; call_onclose;
   AbortController_abort 0; EventSource_close 0; call_onclose].
Proof.
  vm_compute. split; [discriminate |]. split; [discriminate | reflexivity].
Qed.

Lemma send_before_any_endpoint_example :
  let s := connecting authenticated_transport in
  let s' := step s (@Call_send example_platform "{}") in
  outcome (promises s') 2 = Some (Rejected NotConnected) /\ trace s' = trace s.
Proof.
  cbv zeta.
  assert (Hnone : forall es data,
             ~ In (@Event_endpoint example_platform es data)
                 (observed ++ [@Call_start example_platform])).
  { intros es data H. simpl in H.
    repeat (destruct H as [H | H]; [discriminate H |]). exact H. }
  destruct (@send_before_any_endpoint example_platform example_url
              (Some (@mkOptions example_platform (Some "provider") None None))
              (observed ++ [@Call_start example_platform]) "{}" Hnone)
    as (Hrejected & Htrace & _).
  split; [exact Hrejected | exact Htrace].
Defined.

(** After a reconnect, [send] posts to the endpoint of the superseded
    [EventSource]: the transport holds [EventSource] 1, which has delivered
    no ["endpoint"] event, and yet the call is not rejected and a POST goes
    out to the address announced on [EventSource] 0. *)
Lemma send_uses_superseded_endpoint :
  let inputs :=
    observed ++
    [@Call_start example_platform;
     Event_endpoint 0 "/messages";
     Event_error 0 (Some 401) None;
     Settled 0 (auth_is "AUTHORIZED")] in
  let s := run (initially authenticated_transport) inputs in
  let s' := run s [@Call_send example_platform "{}"; Settled 1 (tokens_are None)] in
  _eventSource (this s) = Some 1 /\
  endpoint_events 1 inputs = [] /\
  outcome (promises (step s (@Call_send example_platform "{}")))
    (length (promises s)) <> Some (Rejected NotConnected) /\
  outcome (promises s') (length (promises s)) = Some Pending /\
  trace s' =
    trace s ++
    [requested 1 (Tokens ("provider" : @OAuthClientProvider example_platform));
     requested 2
       (Fetch (Some messages_endpoint)
          (@mkFetchInit example_platform None "POST"
             [("content-type", "application/json")] "{}" (Some 1)))].
Proof.
  cbv zeta. vm_compute. split; [reflexivity |]. split; [reflexivity |].
  split; [discriminate |]. split; reflexivity.
Qed.

Lemma start_opens_one_channel_example :
  let s := initially plain_transport in
  let s1 := step s (@Call_start example_platform) in
  let s2 := run s1 [@Event_endpoint example_platform 0 "/messages"] in
  let s3 := step s2 (@Call_start example_platform) in
  trace s1 =
    [new_EventSource 0 "https://example.com/sse" None; new_AbortController 0] /\
  outcome (promises s3) 2 = Some (Rejected AlreadyStarted) /\
  trace s3 = trace s2.
Proof.
  cbv zeta.
  destruct (@start_opens_one_channel example_platform (initially plain_transport))
    as (Hfirst & _).
  destruct (Hfirst eq_refl) as (Htrace & _).
  destruct (@start_opens_one_channel example_platform
              (step (initially plain_transport) (@Call_start example_platform)))
    as (_ & Hsecond).
  assert (Hstarted :
            _eventSource
              (this (step (initially plain_transport)
                       (@Call_start example_platform))) <> None)
    by discriminate.
  destruct (Hsecond [@Event_endpoint example_platform 0 "/messages"] Hstarted)
    as (Hrejected & Hsame & _).
  split; [exact Htrace |]. split; [exact Hrejected | exact Hsame].
Defined.

Lemma one_malformed_message_example :
  let s := connected plain_transport in
  let s' :=
    run s (map (@Event_message example_platform 0) ["{1}"; "oops"; "{2}"]) in
  trace s' =
    trace s ++
    [call_onmessage ("{1}" : @JSONRPCMessage example_platform);
     call_onerror (Thrown "SyntaxError");
     call_onmessage ("{2}" : @JSONRPCMessage example_platform)] /\
  this s' = this s.
Proof.
  cbv zeta.
  assert (Hone : forall data : string,
             example_parse data = inr data ->
             @decode_to example_platform [data] [data]).
  { intros data H. constructor; [exact H | constructor]. }
  destruct (@one_malformed_message example_platform (connected plain_transport)
              0 1 ["{1}"] ["{2}"] "oops" (Thrown "SyntaxError") ["{1}"] ["{2}"]
              eq_refl eq_refl eq_refl (Hone "{1}" eq_refl) eq_refl
              (Hone "{2}" eq_refl))
    as (Htrace & _ & _ & Hthis & _).
  split; [exact Htrace | exact Hthis].
Defined.

Lemma send_request_headers_example :
  let s := connected customized_transport in
  let POST :=
    send_init (this s) ("{}" : @JSONRPCMessage example_platform)
      (bearer (Some (mkTokens "secret"))) in
  requestInit_headers (this s) =
    [("Authorization", "Basic me"); ("Content-Type", "text/plain");
     ("X-Trace", "1")] /\
  Headers_get (init_headers POST) "Content-Type" = Some "application/json" /\
  Headers_get (init_headers POST) "Authorization" = Some "Basic me" /\
  Headers_get (init_headers POST) "X-Trace" = Some "1".
Proof.
  cbv zeta.
  assert (Hnd : NoDup (map fst (requestInit_headers
                                  (this (connected customized_transport))))).
  { simpl. repeat constructor; simpl; intuition discriminate. }
  destruct (@send_request_headers example_platform
              (connected customized_transport) "{}" None messages_endpoint
              eq_refl Hnd)
    as (_ & Hheaders).
  destruct (Hheaders (Some (mkTokens "secret")))
    as (Hforced & _ & Hwins & _ & _ & Hother).
  split; [reflexivity |]. split; [exact (Hforced "Content-Type" eq_refl) |].
  split.
  - apply (Hwins "Basic me" eq_refl). simpl.
    intros k [<- | [<- | [<- | []]]]; [reflexivity | discriminate | discriminate].
  - rewrite (Hother "X-Trace") by discriminate. reflexivity.
Defined.

(** A caller's [authorization], in lower case, does not win over the
    bearer: the request carries both under the one header.  And the
    headers a caller gives as a [Headers] object are not sent at all. *)
Lemma caller_authorization_is_combined :
  let s := connected lowercase_transport in
  let POST :=
    send_init (this s) ("{}" : @JSONRPCMessage example_platform)
      (bearer (Some (mkTokens "secret"))) in
  let h := connected Headers_transport in
  let POST' :=
    send_init (this h) ("{}" : @JSONRPCMessage example_platform)
      (bearer (Some (mkTokens "secret"))) in
  trace (run s [@Call_send example_platform "{}";
                Settled 0 (tokens_are (Some (mkTokens "secret")))]) =
    trace s ++
    [requested 0 (@Tokens example_platform "provider");
     requested 1 (Fetch (Some messages_endpoint) POST)] /\
  Headers_get (init_headers POST) "Authorization" = Some "Bearer secret, Basic me" /\
  Headers_get (init_headers POST) "Authorization" <> Some "Basic me" /\
  trace (run h [@Call_send example_platform "{}";
                Settled 0 (tokens_are (Some (mkTokens "secret")))]) =
    trace h ++
    [requested 0 (@Tokens example_platform "provider");
     requested 1 (Fetch (Some messages_endpoint) POST')] /\
  Headers_get (init_headers POST') "X-Trace" = None.
Proof.
  vm_compute. split; [reflexivity |]. split; [reflexivity |].
  split; [discriminate |]. split; reflexivity.
Qed.

Lemma authentication_retry_fails_example :
  let s := connecting authenticated_transport in
  let s1 := step s (@Event_error example_platform 0 (Some 401) None) in
  let refused := step s1 (Settled 0 (auth_is "REDIRECT")) in
  let failed := step s1 (Settled 0 (throws (Thrown "network"))) in
  outcome (promises refused) 0 = Some (Rejected Unauthorized) /\
  trace refused = trace s1 /\
  outcome (promises failed) 0 = Some (Rejected (Thrown "network")) /\
  trace failed = trace s1 ++ [call_onerror (Thrown "network")].
Proof.
  cbv zeta.
  destruct (@authentication_retry_fails example_platform
              (connecting authenticated_transport) 0 eq_refl)
    as (Hstream & _).
  destruct (Hstream 1 (start_awaits_example _))
    as (_ & _ & Hthrows & Hrefused).
  destruct (Hrefused "REDIRECT" eq_refl) as (Htrace & _ & Hrejected & _).
  destruct (Hthrows (Thrown "network")) as (Htrace' & _ & Hrejected' & _).
  vm_compute in Htrace, Hrejected, Htrace', Hrejected'. vm_compute.
  split; [exact Hrejected |]. split; [exact Htrace |].
  split; [exact Hrejected' | exact Htrace'].
Defined.

Lemma no_tokens_no_authorization_example :
  let s := connected authenticated_transport in
  let s' := run s [@Call_send example_platform "{}"; Settled 0 (tokens_are None)] in
  let init := @mkRequestInit example_platform None tt in
  let s'' :=
    run s [@Call_fetch example_platform "https://example.com/sse" init;
           Settled 0 (tokens_are None)] in
  trace s' =
    trace s ++
    [requested 0 (Tokens ("provider" : @OAuthClientProvider example_platform));
     requested 1
       (Fetch (Some messages_endpoint)
          (@mkFetchInit example_platform None "POST"
             [("content-type", "application/json")] "{}" (Some 0)))] /\
  outcome (promises s') 2 = Some Pending /\
  trace s'' =
    trace s ++
    [requested 0 (Tokens ("provider" : @OAuthClientProvider example_platform));
     EventSource_fetch "https://example.com/sse" init []].
Proof.
  cbv zeta.
  destruct (@no_tokens_no_authorization example_platform
              (connected authenticated_transport) "provider" eq_refl)
    as (Hsend & Hstream).
  destruct (Hsend "{}" messages_endpoint eq_refl) as (Htrace & Hpending & _).
  destruct (Hstream "https://example.com/sse"
              (@mkRequestInit example_platform None tt) eq_refl)
    as (Htrace' & _).
  split; [exact Htrace |]. split; [exact Hpending | exact Htrace'].
Defined.

(** ** The further properties on the concrete platform *)

Lemma send_http_error_example :
  let s := run (connected plain_transport) [@Call_send example_platform "{}"] in
  let s' :=
    run s [@Settled example_platform 0 (response_is (mkResponse 500));
           Settled 1 (text_is "boom")] in
  trace s' =
    trace s ++
    [requested 1 (Text (mkResponse 500));
     call_onerror (PostError 500 (Some "boom"))] /\
  outcome (promises s') 2 = Some (Rejected (PostError 500 (Some "boom"))).
Proof.
  cbv zeta.
  assert (Hq : awaits
                 (promises (run (connected plain_transport)
                              [@Call_send example_platform "{}"])) 2 2)
    by (apply awaits_itself; reflexivity).
  destruct (@send_http_error example_platform
              (run (connected plain_transport) [@Call_send example_platform "{}"])
              0 2 2 "{}" (mkResponse 500) eq_refl Hq eq_refl
              (or_intror eq_refl) eq_refl)
    as (Hasked & _ & Hbody & _).
  destruct (Hbody "boom") as (Htrace & Hrejected & _).
  vm_compute in Hasked, Htrace, Hrejected. vm_compute.
  split; [exact Htrace | exact Hrejected].
Defined.

Lemma send_failure_is_reported_example :
  let s := run (connected authenticated_transport) [@Call_send example_platform "{}"] in
  let s' := step s (Settled 0 (throws (Thrown "no tokens"))) in
  trace s' = trace s ++ [call_onerror (Thrown "no tokens")] /\
  outcome (promises s') 2 = Some (Rejected (Thrown "no tokens")).
Proof.
  cbv zeta.
  assert (Hq : awaits
                 (promises (run (connected authenticated_transport)
                              [@Call_send example_platform "{}"])) 2 2)
    by (apply awaits_itself; reflexivity).
  destruct (@send_failure_is_reported example_platform
              (run (connected authenticated_transport)
                 [@Call_send example_platform "{}"])
              0 2 2 "{}"
              (@in_commonHeaders example_platform
                 (@for_send example_platform "{}" 2))
              (Thrown "no tokens") eq_refl (or_introl eq_refl) Hq eq_refl)
    as (Htrace & Hrejected & _).
  vm_compute in Htrace, Hrejected. vm_compute.
  split; [exact Htrace | exact Hrejected].
Defined.

Lemma send_posts_to_announced_endpoint_example :
  let s := connecting plain_transport in
  let s' :=
    run s [@Event_endpoint example_platform 0 "/messages";
           @Call_send example_platform "{}"; Settled 0 (response_is (mkResponse 202))] in
  outcome (promises s') 0 = Some Fulfilled /\
  outcome (promises s') 2 = Some Fulfilled /\
  times is_POST (trace s') = 1 /\
  times is_onerror (trace s') = 0.
Proof.
  cbv zeta.
  destruct (@send_posts_to_announced_endpoint example_platform
              (connecting plain_transport) 0 1 0 "/messages" messages_endpoint
              "{}" None (mkResponse 202)
              eq_refl (start_awaits_example _) eq_refl eq_refl eq_refl)
    as (_ & _ & _ & _ & _ & _ & Hposts & Herrors & Hsent).
  vm_compute in Hposts, Herrors, Hsent. vm_compute.
  split; [reflexivity |]. split; [exact Hsent |].
  split; [exact Hposts | exact Herrors].
Defined.

Lemma unparsable_endpoint_closes_example :
  let s := connecting plain_transport in
  let s' := step s (@Event_endpoint example_platform 0 "not a url") in
  outcome (promises s') 0 = Some (Rejected (Thrown "TypeError: Invalid URL")) /\
  trace s' =
    trace s ++
    [call_onerror (Thrown "TypeError: Invalid URL");
     AbortController_abort 0; EventSource_close 0; call_onclose].
Proof.
  cbv zeta.
  destruct (@unparsable_endpoint_closes example_platform
              (connecting plain_transport) 0 1 0 "not a url"
              (Thrown "TypeError: Invalid URL")
              eq_refl (start_awaits_example _) eq_refl eq_refl eq_refl)
    as (Hrejected & Htrace & _).
  vm_compute in Hrejected, Htrace. vm_compute.
  split; [exact Hrejected | exact Htrace].
Defined.

Lemma mismatched_endpoint_is_kept_example :
  let s := connecting plain_transport in
  let foreign := mkURL "https://evil.example/messages" "https://evil.example" in
  let s1 := step s (@Event_endpoint example_platform 0 "https://evil.example/messages") in
  let s2 := step s1 (@Call_send example_platform "{}") in
  _endpoint (this s1) = Some foreign /\
  trace s2 =
    trace s1 ++
    [requested 0
       (Fetch (Some foreign)
          (@mkFetchInit example_platform None "POST"
             [("content-type", "application/json")] "{}" (Some 0)))].
Proof.
  cbv zeta.
  assert (Horigin : "https://evil.example" <> "https://example.com")
    by discriminate.
  destruct (@mismatched_endpoint_is_kept example_platform
              (connecting plain_transport) 0 1
              "https://evil.example/messages"
              (mkURL "https://evil.example/messages" "https://evil.example")
              "{}" eq_refl eq_refl Horigin)
    as (Hkept & _ & Hsend).
  destruct (Hsend eq_refl) as (Htrace & _).
  vm_compute in Hkept, Htrace. vm_compute.
  split; [exact Hkept | exact Htrace].
Defined.

Lemma channel_error_is_reported_example :
  let s := connecting plain_transport in
  let s' := step s (@Event_error example_platform 0 (Some 503) (Some "down")) in
  trace s' = trace s ++ [call_onerror (SseError (Some 503) (Some "down"))] /\
  outcome (promises s') 0 = Some (Rejected (SseError (Some 503) (Some "down"))).
Proof.
  cbv zeta.
  destruct (@channel_error_is_reported example_platform
              (connecting plain_transport) 0 1 (Some 503) (Some "down")
              eq_refl (or_introl eq_refl) eq_refl)
    as (Htrace & _ & _ & _ & _ & Hrejects & _).
  pose proof (Hrejects 0 (start_awaits_example _)) as Hrejected.
  vm_compute in Htrace, Hrejected. vm_compute.
  split; [exact Htrace | exact Hrejected].
Defined.

Lemma only_close_closes_example :
  let inputs :=
    observed ++
    [@Call_start example_platform;
     Event_endpoint 0 "/messages";
     Event_message 0 "oops";
     @Call_send example_platform "{}";
     Settled 0 (tokens_are None);
     Settled 1 (response_is (mkResponse 500));
     Settled 2 (text_is "boom");
     Event_error 0 (Some 503) None] in
  exists delta,
    trace (run (initially authenticated_transport) inputs) = [] ++ delta /\
    times closes delta = 0.
Proof.
  cbv zeta.
  exact (@only_close_closes example_platform
           (observed ++
            [@Call_start example_platform;
             Event_endpoint 0 "/messages";
             Event_message 0 "oops";
             @Call_send example_platform "{}";
             Settled 0 (tokens_are None);
             Settled 1 (response_is (mkResponse 500));
             Settled 2 (text_is "boom");
             Event_error 0 (Some 503) None])
           (initially authenticated_transport) eq_refl).
Defined.

Lemma superseded_EventSource_is_never_closed_example :
  let before :=
    observed ++
    [@Call_start example_platform;
     Event_error 0 (Some 401) None;
     Settled 0 (auth_is "AUTHORIZED")] in
  let after :=
    [@Call_close example_platform;
     Event_endpoint 1 "https://evil.example/messages";
     Call_close] in
  let s0 := run (initially authenticated_transport) before in
  let s1 := run s0 after in
  holds_newest s1 /\
  exists delta,
    trace s1 = trace s0 ++ delta /\ ~ In (EventSource_close 0) delta.
Proof.
  cbv zeta.
  exact (@superseded_EventSource_is_never_closed example_platform example_url
           (Some (@mkOptions example_platform (Some "provider") None None))
           (observed ++
            [@Call_start example_platform;
             Event_error 0 (Some 401) None;
             Settled 0 (auth_is "AUTHORIZED")])
           [@Call_close example_platform;
            Event_endpoint 1 "https://evil.example/messages";
            Call_close]
           0 (le_n 2)).
Defined.

Lemma stream_fetch_headers_example :
  let s := connecting authenticated_transport in
  let init := @mkRequestInit example_platform None tt in
  let s' :=
    run s [@Call_fetch example_platform "https://example.com/sse" init;
           Settled 0 (tokens_are (Some (mkTokens "secret")))] in
  trace s' =
    trace s ++
    [requested 0 (Tokens ("provider" : @OAuthClientProvider example_platform));
     EventSource_fetch "https://example.com/sse" init
       [("Authorization", "Bearer secret")]].
Proof.
  cbv zeta.
  pose proof (@stream_fetch_headers example_platform
                (connecting authenticated_transport)
                "https://example.com/sse"
                (@mkRequestInit example_platform None tt) eq_refl) as H.
  cbv zeta in H. vm_compute in H. destruct H as (_ & Hfetch & _).
  pose proof (Hfetch (mkTokens "secret")) as Htrace.
  vm_compute in Htrace. vm_compute. exact Htrace.
Defined.

Lemma close_does_not_reset_example :
  let s := connected plain_transport in
  let s1 := step s (@Call_close example_platform) in
  let sent := step s1 (@Call_send example_platform "{}") in
  let restarted := step s1 (@Call_start example_platform) in
  trace sent =
    trace s1 ++
    [requested 0
       (Fetch (Some messages_endpoint)
          (@mkFetchInit example_platform None "POST"
             [("content-type", "application/json")] "{}" (Some 0)))] /\
  outcome (promises restarted) 3 = Some (Rejected AlreadyStarted).
Proof.
  cbv zeta.
  destruct (@close_does_not_reset example_platform (connected plain_transport)
              messages_endpoint 0 "{}" eq_refl eq_refl)
    as (_ & _ & Hsend & Hrestart & _).
  destruct (Hsend eq_refl) as (Htrace & _).
  vm_compute in Htrace, Hrestart. vm_compute.
  split; [exact Htrace | exact Hrestart].
Defined.

Lemma resend_has_no_bound_example :
  let s := connected authenticated_transport in
  let s' :=
    run s (@Call_send example_platform "{}" ::
           refusals (Some (mkTokens "stale")) 3 0) in
  times is_POST (trace s') = 3 /\
  times is_onerror (trace s') = 0 /\
  outcome (promises s') 2 = Some Pending.
Proof.
  cbv zeta.
  destruct (@resend_has_no_bound example_platform 3
              (connected authenticated_transport) "{}" messages_endpoint
              "provider" (Some (mkTokens "stale")) eq_refl eq_refl)
    as (Hposts & Herrors & Hpending & _).
  vm_compute in Hposts, Herrors, Hpending. vm_compute.
  split; [exact Hposts |]. split; [exact Herrors | exact Hpending].
Defined.
